(** * ShadowMint: the token ledger and its decrypt-permission protocol

    A shallow embedding of the [ShadowMint] Solidity contract
    (contracts/ShadowMint.sol) and proofs about its ledger, its transfer
    and mint state machine and the grants it registers with the ACL. *)

From Stdlib Require Import NArith String List Lia.
From stdpp Require Import gmap strings list fin_maps pretty.

Local Open Scope N_scope.

(** ** Solidity value types

    [address] is a 160-bit and [uint256] a 256-bit unsigned integer; an
    [eaddress] is the bytes32 handle of a ciphertext.  All are natural
    numbers here; the arithmetic of the contract is the checked arithmetic
    of Solidity 0.8 ([checked_add], [checked_sub] below). *)

Abbreviation address := N (only parsing).
Abbreviation uint256 := N (only parsing).
Abbreviation eaddress := N (only parsing).
Abbreviation externalEaddress := N (only parsing).
Abbreviation bytes4 := N (only parsing).
Abbreviation bytes := (list N) (only parsing).

Definition max_uint256 : N := 2 ^ 256 - 1.

(** ** Failure of a call *)

Inductive error :=
| Revert (reason : string)   (* require(cond, reason) failed *)
| Panic (code : N)           (* 0x11 overflow, 0x31 pop of [], 0x32 index *)
| InvalidCiphertext.         (* FHE.fromExternal rejected the input *)

Inductive result (A : Type) :=
| Ok (a : A)
| Err (e : error).
Arguments Ok {A} a.
Arguments Err {A} e.

Global Instance result_ret : MRet result := fun _ a => Ok a.
Global Instance result_bind : MBind result := fun _ _ f m =>
  match m with
  | Ok a => f a
  | Err e => Err e
  end.

Definition require (cond : bool) (reason : string) : result unit :=
  if cond then Ok tt else Err (Revert reason).

Definition checked_add (a b : N) : result N :=
  if a + b <=? max_uint256 then Ok (a + b) else Err (Panic 17).

Definition checked_sub (a b : N) : result N :=
  if b <=? a then Ok (a - b) else Err (Panic 17).

(** Storage arrays: indexed read and write revert out of range, [pop]
    reverts on the empty array. *)

Definition array_get (arr : list N) (i : N) : result N :=
  match arr !! N.to_nat i with
  | Some x => Ok x
  | None => Err (Panic 50)
  end.

Definition array_set (arr : list N) (i : N) (x : N) : result (list N) :=
  if i <? N.of_nat (length arr) then Ok (<[N.to_nat i := x]> arr)
  else Err (Panic 50).

Definition array_pop (arr : list N) : result (list N) :=
  match arr with
  | [] => Err (Panic 49)
  | _ => Ok (removelast arr)
  end.

(** ** Storage of the contract *)

Record TokenData := mkTokenData {
  owner : address;
  realOwner : eaddress;
  metadataURI : string
}.

Inductive Event :=
| Transfer (from to : address) (tokenId : uint256)
| Minted (minter : address) (tokenId : uint256) (uri : string)
| DecryptPermissionGranted (tokenId : uint256) (account : address).

(** The five storage variables of the contract, and [acl]: the persistent
    allow-list that the ACL contract keeps for this contract's handles. *)

Record state := mkState {
  _nextTokenId : uint256;
  _tokens : gmap N TokenData;
  _balances : gmap N N;
  _ownedTokens : gmap N (list N);
  _ownedTokenIndex : gmap N N;
  acl : gset (N * N)
}.

(** State after the constructor: [_nextTokenId = 1], everything else empty. *)
Definition deployed : state :=
  mkState 1 ∅ ∅ ∅ ∅ ∅.

(** A Solidity mapping is total: a key never written reads as zero. *)

Definition zeroToken : TokenData := mkTokenData 0 0 "".

Definition tokens_at (s : state) (tokenId : uint256) : TokenData :=
  default zeroToken (_tokens s !! tokenId).
Definition balances_at (s : state) (a : address) : uint256 :=
  default 0 (_balances s !! a).
Definition ownedTokens_at (s : state) (a : address) : list N :=
  default [] (_ownedTokens s !! a).
Definition ownedTokenIndex_at (s : state) (tokenId : uint256) : uint256 :=
  default 0 (_ownedTokenIndex s !! tokenId).

Definition set_nextTokenId (n : uint256) (s : state) : state :=
  mkState n (_tokens s) (_balances s) (_ownedTokens s) (_ownedTokenIndex s) (acl s).
Definition set_token (tokenId : uint256) (t : TokenData) (s : state) : state :=
  mkState (_nextTokenId s) (<[tokenId := t]> (_tokens s)) (_balances s)
          (_ownedTokens s) (_ownedTokenIndex s) (acl s).
Definition set_balance (a : address) (n : uint256) (s : state) : state :=
  mkState (_nextTokenId s) (_tokens s) (<[a := n]> (_balances s))
          (_ownedTokens s) (_ownedTokenIndex s) (acl s).
Definition set_owned (a : address) (arr : list N) (s : state) : state :=
  mkState (_nextTokenId s) (_tokens s) (_balances s)
          (<[a := arr]> (_ownedTokens s)) (_ownedTokenIndex s) (acl s).
Definition set_index (tokenId : uint256) (i : uint256) (s : state) : state :=
  mkState (_nextTokenId s) (_tokens s) (_balances s)
          (_ownedTokens s) (<[tokenId := i]> (_ownedTokenIndex s)) (acl s).
Definition delete_index (tokenId : uint256) (s : state) : state :=
  mkState (_nextTokenId s) (_tokens s) (_balances s)
          (_ownedTokens s) (delete tokenId (_ownedTokenIndex s)) (acl s).

(** ** Read operations *)

Definition totalSupply (s : state) : result uint256 :=
  checked_sub (_nextTokenId s) 1.

Definition balanceOf (owner : address) (s : state) : result uint256 :=
  _ ← require (negb (owner =? 0)) "Invalid owner";
  Ok (balances_at s owner).

Definition ownerOf (tokenId : uint256) (s : state) : result address :=
  let token := tokens_at s tokenId in
  _ ← require (negb (owner token =? 0)) "Token does not exist";
  Ok (owner token).

Definition _getToken (tokenId : uint256) (s : state) : result TokenData :=
  let token := tokens_at s tokenId in
  _ ← require (negb (owner token =? 0)) "Token does not exist";
  Ok token.

Definition tokenURI (tokenId : uint256) (s : state) : result string :=
  token ← _getToken tokenId s;
  Ok (metadataURI token).

Definition getEncryptedRealOwner (tokenId : uint256) (s : state) : result eaddress :=
  token ← _getToken tokenId s;
  Ok (realOwner token).

Definition tokensOfOwner (owner : address) (s : state) : list N :=
  ownedTokens_at s owner.

(** ** Owner index: append, and removal by swap with the last element *)

Definition _addOwnedToken (owner : address) (tokenId : uint256) (s : state) : state :=
  let s := set_index tokenId (N.of_nat (length (ownedTokens_at s owner))) s in
  set_owned owner (ownedTokens_at s owner ++ [tokenId]) s.

Definition _removeOwnedToken (owner : address) (tokenId : uint256) (s : state)
  : result state :=
  lastIndex ← checked_sub (N.of_nat (length (ownedTokens_at s owner))) 1;
  let index := ownedTokenIndex_at s tokenId in
  s ← (if negb (index =? lastIndex) then
         lastTokenId ← array_get (ownedTokens_at s owner) lastIndex;
         arr ← array_set (ownedTokens_at s owner) index lastTokenId;
         let s := set_owned owner arr s in
         Ok (set_index lastTokenId index s)
       else Ok s);
  arr ← array_pop (ownedTokens_at s owner);
  let s := set_owned owner arr s in
  Ok (delete_index tokenId s).

(** ** The encryption service *)

(** Modelled from the spec: [FHE.allow] and [FHE.allowThis] of the
    @fhevm/solidity library, which is not part of the repository.  The ACL
    is the relation (ciphertext handle, address) of those who may decrypt;
    a grant adds one pair to it. *)
Definition FHE_allow (handle : eaddress) (account : address) (s : state) : state :=
  mkState (_nextTokenId s) (_tokens s) (_balances s) (_ownedTokens s)
          (_ownedTokenIndex s) ({[ (handle, account) ]} ∪ acl s).

Definition isAllowed (handle : eaddress) (account : address) (s : state) : Prop :=
  (handle, account) ∈ acl s.

(** The selector that an ERC-721 receiver has to return. *)
Definition onERC721Received_selector : bytes4 := 353073666 (* 0x150b7a02 *).

(** ** Calls

    A transaction, or a call made from inside a receiver's callback.
    [sender] is [msg.sender].  The receiver of a safe transfer is code the
    contract does not control: [NoCode] is an address without code,
    [Reverts] a callback that reverts, and [Returns calls retval] a callback
    that re-enters this contract with [calls] and then returns [retval]. *)

Inductive receiver (C : Type) :=
| NoCode
| Reverts
| Returns (calls : list C) (retval : bytes4).
Arguments NoCode {C}.
Arguments Reverts {C}.
Arguments Returns {C} calls retval.

#[warnings="-register-all"]
Inductive call :=
| Mint (sender : address) (uri : string) (ct : externalEaddress) (proof : bytes)
| GrantDecryptPermission (sender : address) (tokenId : uint256) (account : address)
| TransferFrom (sender : address) (from to : address) (tokenId : uint256)
| SafeTransferFrom (sender : address) (from to : address) (tokenId : uint256)
    (rcv : receiver call)
| SafeTransferFromData (sender : address) (from to : address) (tokenId : uint256)
    (data : bytes) (rcv : receiver call).

Definition sender_of (c : call) : address :=
  match c with
  | Mint a _ _ _ | GrantDecryptPermission a _ _ | TransferFrom a _ _ _
  | SafeTransferFrom a _ _ _ _ | SafeTransferFromData a _ _ _ _ _ => a
  end.

Section ShadowMint.

(** The address of the deployed contract, [address(this)]. *)
Variable this : address.

(** Modelled from the spec: [FHE.fromExternal] of the @fhevm/solidity
    library, which is not part of the repository.  The validation service
    checks the ciphertext and its proof against the contract and the
    submitter, and yields the validated handle or rejects. *)
Variable verifyInput :
  address -> address -> externalEaddress -> bytes -> option eaddress.

Definition FHE_fromExternal (sender : address) (ct : externalEaddress)
    (inputProof : bytes) : result eaddress :=
  match verifyInput this sender ct inputProof with
  | Some handle => Ok handle
  | None => Err InvalidCiphertext
  end.

Definition FHE_allowThis (handle : eaddress) (s : state) : state :=
  FHE_allow handle this s.

(** *** State-changing operations *)

Definition mint (sender : address) (uri : string) (ct : externalEaddress)
    (inputProof : bytes) (s : state) : result (uint256 * state * list Event) :=
  validatedRealOwner ← FHE_fromExternal sender ct inputProof;
  let tokenId := _nextTokenId s in
  next ← checked_add (_nextTokenId s) 1;
  let s := set_nextTokenId next s in
  let s := set_token tokenId (mkTokenData sender validatedRealOwner uri) s in
  b ← checked_add (balances_at s sender) 1;
  let s := set_balance sender b s in
  let s := set_index tokenId (N.of_nat (length (ownedTokens_at s sender))) s in
  let s := set_owned sender (ownedTokens_at s sender ++ [tokenId]) s in
  let s := FHE_allowThis validatedRealOwner s in
  let s := FHE_allow validatedRealOwner sender s in
  Ok (tokenId, s,
      [Transfer 0 sender tokenId; Minted sender tokenId uri;
       DecryptPermissionGranted tokenId sender]).

Definition grantDecryptPermission (sender : address) (tokenId : uint256)
    (account : address) (s : state) : result (state * list Event) :=
  token ← _getToken tokenId s;
  _ ← require (sender =? owner token) "Caller is not token owner";
  _ ← require (negb (account =? 0)) "Invalid account";
  let s := FHE_allow (realOwner token) account s in
  Ok (s, [DecryptPermissionGranted tokenId account]).

Definition transferFrom (sender : address) (from to : address)
    (tokenId : uint256) (s : state) : result (state * list Event) :=
  token ← _getToken tokenId s;
  _ ← require (owner token =? from) "Transfer from incorrect owner";
  _ ← require (sender =? from) "Caller is not owner";
  _ ← require (negb (to =? 0)) "Invalid receiver";
  b ← checked_sub (balances_at s from) 1;
  let s := set_balance from b s in
  b ← checked_add (balances_at s to) 1;
  let s := set_balance to b s in
  s ← _removeOwnedToken from tokenId s;
  let s := _addOwnedToken to tokenId s in
  let token := tokens_at s tokenId in
  let s := set_token tokenId
             (mkTokenData to (realOwner token) (metadataURI token)) s in
  let s := FHE_allow (realOwner (tokens_at s tokenId)) to s in
  Ok (s, [Transfer from to tokenId; DecryptPermissionGranted tokenId to]).

(** *** Execution of calls

    [exec] runs one call.  A call that fails is reverted by the platform:
    [apply_call] then leaves the state as it was.  In a safe transfer the
    callback of the receiver runs after the transfer has been written;
    the calls it makes re-enter the contract one after the other
    ([reenter]), and a callback that reverts or returns anything but the
    selector makes [_checkOnERC721Received] answer [false], which reverts
    the whole call.  The events listed for a call are its own; those of
    the calls re-entered from a callback are not collected. *)

Definition _checkOnERC721Received (reenter : call -> state -> state)
    (rcv : receiver call) (s : state) : state * bool :=
  match rcv with
  | NoCode => (s, true)
  | Reverts => (s, false)
  | Returns calls retval =>
      (fold_left (fun s c => reenter c s) calls s,
       retval =? onERC721Received_selector)
  end.

Fixpoint exec (c : call) (s : state) : result (state * list Event) :=
  match c with
  | Mint sender uri ct inputProof =>
      '(_, s, evs) ← mint sender uri ct inputProof s;
      Ok (s, evs)
  | GrantDecryptPermission sender tokenId account =>
      grantDecryptPermission sender tokenId account s
  | TransferFrom sender from to tokenId =>
      transferFrom sender from to tokenId s
  | SafeTransferFrom sender from to tokenId rcv
  | SafeTransferFromData sender from to tokenId _ rcv =>
      '(s, evs) ← transferFrom sender from to tokenId s;
      let '(s, ok) :=
        _checkOnERC721Received
          (fun c s => match exec c s with
                      | Ok (s', _) => s'
                      | Err _ => s
                      end) rcv s in
      _ ← require ok "Invalid receiver";
      Ok (s, evs)
  end.

Definition apply_call (c : call) (s : state) : state :=
  match exec c s with
  | Ok (s', _) => s'
  | Err _ => s
  end.

Definition run (cs : list call) (s : state) : state :=
  fold_left (fun s c => apply_call c s) cs s.

End ShadowMint.

(** ** Quantities and predicates used in the statements *)

(** Sum of the values stored in a mapping to [uint256]. *)
Definition sum_values (m : gmap N N) : N :=
  map_fold (fun _ v acc => v + acc) 0 m.

(** Sum of [g] over a finite set of addresses. *)
Definition sum_over (A : gset N) (g : N -> N) : N :=
  set_fold (fun a acc => g a + acc) 0 A.

(** [balanceOf] summed over the addresses in [A]; an address on which the
    read fails has no balance to contribute. *)
Definition sum_balanceOf (A : gset N) (s : state) : N :=
  sum_over A (fun a => match balanceOf a s with Ok n => n | Err _ => 0 end).

(** Number of times [tokenId] occurs in a list of token ids. *)
Definition occurrences (tokenId : uint256) (l : list N) : nat :=
  count_occ N.eq_dec l tokenId.

(** What [_removeOwnedToken] leaves of an owner's array when the token
    removed sits at position [p]: the last element moves to [p] unless [p]
    is the last position, then the array is shortened by one. *)
Definition swap_remove (arr : list N) (p : nat) : list N :=
  removelast
    (if decide (p = pred (length arr)) then arr
     else match arr !! pred (length arr) with
          | Some z => <[p := z]> arr
          | None => arr
          end).

(** The ledger invariant: ids below the counter are exactly the tokens
    that exist, each owner's array lists exactly the tokens whose stored
    owner it is, once each, the reverse index gives each token's position,
    a balance is the length of the array, and the balances add up to the
    number of tokens minted. *)
Record wf (s : state) : Prop := mkWf {
  wf_next : 1 <= _nextTokenId s <= max_uint256;
  wf_exists : forall tokenId,
    owner (tokens_at s tokenId) <> 0 <-> 1 <= tokenId < _nextTokenId s;
  wf_balance : forall a,
    balances_at s a = N.of_nat (length (ownedTokens_at s a));
  wf_nodup : forall a, NoDup (ownedTokens_at s a);
  wf_owned : forall a tokenId,
    tokenId ∈ ownedTokens_at s a <-> owner (tokens_at s tokenId) = a /\ a <> 0;
  wf_index : forall a i tokenId,
    ownedTokens_at s a !! i = Some tokenId ->
    ownedTokenIndex_at s tokenId = N.of_nat i;
  wf_sum : sum_values (_balances s) = _nextTokenId s - 1
}.

(** The calls with which a receiver re-enters the contract. *)
Definition reentered (rcv : receiver call) : list call :=
  match rcv with
  | Returns calls _ => calls
  | _ => []
  end.

(** [P] holds of each of them. *)
Definition receiver_all (P : call -> Prop) (rcv : receiver call) : Prop :=
  match rcv with
  | Returns calls _ => fold_right (fun c rest => P c /\ rest) True calls
  | _ => True
  end.

(** [msg.sender] is never the zero address, neither in a transaction nor in
    a call made from a receiver's callback. *)
Fixpoint valid_call (c : call) : Prop :=
  sender_of c <> 0 /\
  match c with
  | SafeTransferFrom _ _ _ _ rcv | SafeTransferFromData _ _ _ _ _ rcv =>
      receiver_all valid_call rcv
  | _ => True
  end.

(** The states of the contract: those that a sequence of calls produces
    from the state after deployment. *)
Definition reachable (this : address)
    (verifyInput : address -> address -> externalEaddress -> bytes -> option eaddress)
    (s : state) : Prop :=
  exists cs, Forall valid_call cs /\ run this verifyInput cs deployed = s.

(** The state [s'] that a transfer of token [tokenId], found at position [p]
    of [from]'s array, makes of [s], storage variable by storage variable. *)
Record transfer_post (s : state) (from to tokenId : N) (p : nat) (s' : state)
  : Prop := mkTransferPost {
  tp_next : _nextTokenId s' = _nextTokenId s;
  tp_tokens : _tokens s' =
    <[tokenId := mkTokenData to (realOwner (tokens_at s tokenId))
                   (metadataURI (tokens_at s tokenId))]> (_tokens s);
  tp_balances : _balances s' =
    <[to := (if decide (to = from) then balances_at s from - 1
             else balances_at s to) + 1]>
      (<[from := balances_at s from - 1]> (_balances s));
  tp_acl : acl s' = {[ (realOwner (tokens_at s tokenId), to) ]} ∪ acl s;
  tp_owned : forall b, ownedTokens_at s' b =
    if decide (b = to) then
      (if decide (to = from) then swap_remove (ownedTokens_at s from) p
       else ownedTokens_at s to) ++ [tokenId]
    else if decide (b = from) then swap_remove (ownedTokens_at s from) p
    else ownedTokens_at s b;
  tp_index : forall j, ownedTokenIndex_at s' j =
    if decide (j = tokenId) then
      N.of_nat (length (if decide (to = from)
                        then swap_remove (ownedTokens_at s from) p
                        else ownedTokens_at s to))
    else if decide (p <> pred (length (ownedTokens_at s from)) /\
                    ownedTokens_at s from !! pred (length (ownedTokens_at s from))
                    = Some j)
         then N.of_nat p
         else ownedTokenIndex_at s j
}.

(** Token [tokenId] exists in [s'] with the ciphertext handle and the
    metadata URI it has in [s]. *)
Definition same_content (s s' : state) (tokenId : uint256) : Prop :=
  owner (tokens_at s' tokenId) <> 0 /\
  realOwner (tokens_at s' tokenId) = realOwner (tokens_at s tokenId) /\
  metadataURI (tokens_at s' tokenId) = metadataURI (tokens_at s tokenId).

(** ** Induction on calls, through the calls a callback re-enters with *)

Section call_nested_ind.
Variable P : call -> Prop.
Hypothesis HMint : forall sender uri ct proof, P (Mint sender uri ct proof).
Hypothesis HGrant : forall sender tokenId account,
  P (GrantDecryptPermission sender tokenId account).
Hypothesis HTransfer : forall sender from to tokenId,
  P (TransferFrom sender from to tokenId).
Hypothesis HSafe : forall sender from to tokenId rcv,
  receiver_all P rcv -> P (SafeTransferFrom sender from to tokenId rcv).
Hypothesis HSafeData : forall sender from to tokenId data rcv,
  receiver_all P rcv -> P (SafeTransferFromData sender from to tokenId data rcv).

Fixpoint call_nested_ind (c : call) : P c :=
  let rcv_all (rcv : receiver call) : receiver_all P rcv :=
    match rcv with
    | NoCode => I
    | Reverts => I
    | Returns calls _ =>
        (fix go (cs : list call) : fold_right (fun c rest => P c /\ rest) True cs :=
           match cs with
           | [] => I
           | c :: cs => conj (call_nested_ind c) (go cs)
           end) calls
    end in
  match c with
  | Mint sender uri ct proof => HMint sender uri ct proof
  | GrantDecryptPermission sender tokenId account => HGrant sender tokenId account
  | TransferFrom sender from to tokenId => HTransfer sender from to tokenId
  | SafeTransferFrom sender from to tokenId rcv =>
      HSafe sender from to tokenId rcv (rcv_all rcv)
  | SafeTransferFromData sender from to tokenId data rcv =>
      HSafeData sender from to tokenId data rcv (rcv_all rcv)
  end.
End call_nested_ind.

(** ** A deployment to run the contract on

    The accounts of the test suite, a contract address, and a validation
    service that accepts a ciphertext when its proof names the contract,
    the submitter and the ciphertext. *)

Definition alice : address := 5.
Definition bob : address := 6.
Definition carol : address := 7.
Definition example_this : address := 99.

Definition example_verifyInput (contractAddress sender : address)
    (ct : externalEaddress) (proof : bytes) : option eaddress :=
  if decide (proof = [contractAddress; sender; ct]) then Some (ct + 1000) else None.

(** Alice has minted token 1. *)
Definition example_minted : state :=
  run example_this example_verifyInput
    [Mint alice "ipfs://shadowmint/3" 7 [example_this; alice; 7]] deployed.

(** Alice has then transferred token 1 to Bob. *)
Definition example_transferred : state :=
  apply_call example_this example_verifyInput
    (TransferFrom alice alice bob 1) example_minted.

(** Alice has, instead, transferred token 1 to herself. *)
Definition example_self_transferred : state :=
  apply_call example_this example_verifyInput
    (TransferFrom alice alice alice 1) example_minted.


(** ** Further predicates on calls and states *)

(** Every sender of [c], and of the calls its callbacks re-enter with,
    satisfies [V]. *)
Fixpoint senders_all (V : address -> Prop) (c : call) : Prop :=
  V (sender_of c) /\
  match c with
  | SafeTransferFrom _ _ _ _ rcv | SafeTransferFromData _ _ _ _ _ rcv =>
      receiver_all (senders_all V) rcv
  | _ => True
  end.

(** The owner of every token that exists, and the contract itself, may
    decrypt the token's ciphertext handle. *)
Definition owner_can_decrypt (this : address) (s : state) : Prop :=
  forall tokenId,
    owner (tokens_at s tokenId) <> 0 ->
    isAllowed (realOwner (tokens_at s tokenId)) (owner (tokens_at s tokenId)) s /\
    isAllowed (realOwner (tokens_at s tokenId)) this s.

(** A ledger whose id counter has reached the largest [uint256]. *)
Definition example_exhausted : state :=
  set_nextTokenId max_uint256 deployed.

(** Alice has minted tokens 1, 2 and 3, and Bob token 4. *)
Definition example_four : state :=
  run example_this example_verifyInput
    [Mint alice "ipfs://shadowmint/1" 7 [example_this; alice; 7];
     Mint alice "ipfs://shadowmint/2" 8 [example_this; alice; 8];
     Mint alice "ipfs://shadowmint/3" 9 [example_this; alice; 9];
     Mint bob "ipfs://shadowmint/4" 10 [example_this; bob; 10]] deployed.

(** Alice has then transferred token 1 to Bob. *)
Definition example_four_moved : state :=
  apply_call example_this example_verifyInput
    (TransferFrom alice alice bob 1) example_four.

(** ** The mint form of the web client

    The "Next token" label of the form: [totalSupply] is what the form has
    read from the contract, [None] while nothing has been read.  In
    JavaScript [!totalSupply] holds of [undefined] and of [0n]; [toString]
    of a BigInt is its decimal numeral. *)
Definition nextTokenId (totalSupply : option N) : string :=
  match totalSupply with
  | None => "1"
  | Some 0 => "1"
  | Some n => pretty (n + 1)
  end.

(** * Proofs *)

(** ** Sums over mappings and sets *)

Lemma sum_values_empty : sum_values ∅ = 0.
Proof. apply map_fold_empty. Qed.

Lemma sum_values_fresh (m : gmap N N) a v :
  m !! a = None -> sum_values (<[a:=v]> m) = v + sum_values m.
Proof.
  intros Ha. unfold sum_values.
  rewrite map_fold_insert_L; [done | intros; lia | done].
Qed.

Lemma sum_values_delete (m : gmap N N) a :
  sum_values m = default 0 (m !! a) + sum_values (delete a m).
Proof.
  destruct (m !! a) as [w|] eqn:Ha; simpl.
  - rewrite <- (insert_delete_id m a w) at 1 by done.
    apply sum_values_fresh, lookup_delete_eq.
  - by rewrite delete_id.
Qed.

Lemma sum_values_insert (m : gmap N N) a v :
  sum_values (<[a:=v]> m) + default 0 (m !! a) = sum_values m + v.
Proof.
  rewrite (sum_values_delete m a), <- (insert_delete_eq m).
  rewrite sum_values_fresh by apply lookup_delete_eq. lia.
Qed.

Lemma sum_over_empty g : sum_over ∅ g = 0.
Proof. apply set_fold_empty. Qed.

Lemma sum_over_insert (X : gset N) x g :
  x ∉ X -> sum_over ({[x]} ∪ X) g = g x + sum_over X g.
Proof.
  intros Hx. unfold sum_over.
  rewrite (set_fold_disj_union_strong (=)); [| solve_proper | intros; lia | set_solver].
  rewrite set_fold_singleton, N.add_0_r.
  rewrite <- (N.add_0_r (g x)) at 1.
  apply (set_fold_comm_acc (fun a acc => g a + acc) (fun acc => g x + acc)).
  intros; lia.
Qed.

Lemma sum_over_ext (X : gset N) g h :
  (forall a, a ∈ X -> g a = h a) -> sum_over X g = sum_over X h.
Proof.
  induction X as [|x X Hx IH] using set_ind_L; intros Hgh.
  - by rewrite !sum_over_empty.
  - rewrite !sum_over_insert by done.
    rewrite IH, Hgh; [done | set_solver | set_solver].
Qed.

Lemma sum_values_zero (m : gmap N N) :
  (forall a, default 0 (m !! a) = 0) -> sum_values m = 0.
Proof.
  induction m as [|a v m Ha IH] using map_ind; intros Hz.
  - apply sum_values_empty.
  - rewrite sum_values_fresh by done.
    pose proof (Hz a) as Hv. rewrite lookup_insert_eq in Hv. simpl in Hv.
    rewrite IH; [lia |].
    intros b. destruct (decide (a = b)) as [->|Hne].
    + by rewrite Ha.
    + specialize (Hz b). by rewrite lookup_insert_ne in Hz.
Qed.

Lemma sum_over_support (A : gset N) : forall m : gmap N N,
  (forall a, default 0 (m !! a) <> 0 -> a ∈ A) ->
  sum_over A (fun a => default 0 (m !! a)) = sum_values m.
Proof.
  induction A as [|x X Hx IH] using set_ind_L; intros m Hsupp.
  - rewrite sum_over_empty. symmetry. apply sum_values_zero.
    intros a. destruct (decide (default 0 (m !! a) = 0)) as [|Hne]; [done|].
    pose proof (Hsupp a Hne) as Hin. by apply not_elem_of_empty in Hin.
  - rewrite sum_over_insert by done.
    rewrite (sum_values_delete m x). f_equal.
    rewrite <- (IH (delete x m)).
    + apply sum_over_ext. intros a Ha.
      rewrite lookup_delete_ne; [done | set_solver].
    + intros a Hne. destruct (decide (x = a)) as [->|Hxa].
      * by rewrite lookup_delete_eq in Hne.
      * rewrite lookup_delete_ne in Hne by done.
        pose proof (Hsupp a Hne) as Hin.
        apply elem_of_union in Hin as [Hin|Hin]; [| done].
        apply elem_of_singleton in Hin. congruence.
Qed.

(** ** Removal by swap with the last element, on lists *)

Lemma swap_remove_last (l : list N) x :
  swap_remove (l ++ [x]) (length l) = l.
Proof.
  unfold swap_remove. rewrite length_app, Nat.add_1_r. simpl.
  rewrite decide_True by done. apply removelast_last.
Qed.

Lemma swap_remove_mid (l1 l2 : list N) x z :
  swap_remove (l1 ++ x :: l2 ++ [z]) (length l1) = l1 ++ z :: l2.
Proof.
  unfold swap_remove.
  assert (Hlen : pred (length (l1 ++ x :: l2 ++ [z])) = (length l1 + S (length l2))%nat).
  { rewrite length_app. simpl. rewrite length_app. simpl. lia. }
  rewrite Hlen, decide_False by lia.
  replace ((l1 ++ x :: l2 ++ [z]) !! (length l1 + S (length l2))%nat) with (Some z).
  - rewrite insert_app_r_alt, Nat.sub_diag by lia. simpl.
    change (l1 ++ z :: l2 ++ [z]) with (l1 ++ (z :: l2) ++ [z]).
    rewrite app_assoc, removelast_last. done.
  - symmetry. rewrite lookup_app_r by lia.
    replace (length l1 + S (length l2) - length l1)%nat with (S (length l2)) by lia.
    simpl. rewrite lookup_app_r by lia. by rewrite Nat.sub_diag.
Qed.

Lemma lookup_split_last (arr : list N) p x :
  arr !! p = Some x ->
  (exists l1, arr = l1 ++ [x] /\ length l1 = p) \/
  (exists l1 l2 z, arr = l1 ++ x :: l2 ++ [z] /\ length l1 = p).
Proof.
  intros Hp.
  pose proof (take_drop_middle arr p x Hp) as Hsplit.
  assert (Hlp : length (take p arr) = p).
  { apply lookup_lt_Some in Hp. rewrite length_take. lia. }
  assert (Hcase : drop (S p) arr = [] \/ exists l z, drop (S p) arr = l ++ [z]).
  { generalize (drop (S p) arr). intros l.
    induction l as [|z l _] using rev_ind; [by left | right; eauto]. }
  destruct Hcase as [Hd|(l & z & Hd)]; rewrite Hd in Hsplit.
  - left. by exists (take p arr).
  - right. by exists (take p arr), l, z.
Qed.

Lemma swap_remove_spec (arr : list N) p x :
  NoDup arr -> arr !! p = Some x ->
  S (length (swap_remove arr p)) = length arr /\
  NoDup (swap_remove arr p) /\
  (forall y, y ∈ swap_remove arr p <-> y ∈ arr /\ y <> x) /\
  (forall j y, swap_remove arr p !! j = Some y ->
     (p <> pred (length arr) /\ j = p /\ arr !! pred (length arr) = Some y) \/
     (arr !! j = Some y /\ (p <> pred (length arr) -> arr !! pred (length arr) <> Some y))).
Proof.
  intros Hnd Hp.
  destruct (lookup_split_last arr p x Hp) as [(l1 & -> & <-)|(l1 & l2 & z & -> & <-)].
  - rewrite swap_remove_last.
    apply NoDup_app in Hnd as (Hnd1 & Hdisj & _).
    split; [| split; [done | split]].
    + rewrite length_app. simpl. lia.
    + intros y. rewrite elem_of_app, list_elem_of_singleton.
      split; [| tauto]. intros Hy. split; [by left |].
      intros ->. apply (Hdisj x Hy). by apply list_elem_of_singleton.
    + intros j y Hj. right. split; [| rewrite length_app; simpl; lia].
      by apply lookup_app_l_Some.
  - rewrite swap_remove_mid.
    set (arr := l1 ++ x :: l2 ++ [z]) in *.
    assert (Hlen : length arr = (length l1 + S (S (length l2)))%nat).
    { unfold arr. rewrite length_app. simpl. rewrite length_app. simpl. lia. }
    assert (Hz : arr !! pred (length arr) = Some z).
    { rewrite Hlen. unfold arr. rewrite lookup_app_r by lia.
      replace (pred (length l1 + S (S (length l2))) - length l1)%nat
        with (S (length l2)) by lia.
      simpl. rewrite lookup_app_r by lia. by rewrite Nat.sub_diag. }
    assert (Hperm : arr ≡ₚ x :: l1 ++ z :: l2).
    { unfold arr. rewrite <- Permutation_middle. constructor.
      apply Permutation_app_head. change (z :: l2) with ([z] ++ l2).
      apply Permutation_app_comm. }
    pose proof Hnd as Hnd'. rewrite Hperm in Hnd'. apply NoDup_cons in Hnd' as [Hx Hnd'].
    split; [| split; [done | split]].
    + rewrite Hlen, length_app. simpl. lia.
    + intros y. rewrite Hperm, elem_of_cons. split.
      * intros Hy. split; [by right |]. by intros ->.
      * intros [[->|Hy] Hne]; done.
    + intros j y Hj.
      destruct (decide (j = length l1)) as [->|Hjp].
      * left. split; [lia |]. split; [done |].
        rewrite list_lookup_middle in Hj by done. congruence.
      * right.
        assert (Hjy : arr !! j = Some y).
        { unfold arr. apply lookup_app_Some in Hj as [Hj|[Hge Hj]];
            [by apply lookup_app_l_Some |].
          rewrite lookup_app_r by lia.
          destruct (j - length l1)%nat as [|k] eqn:Hk; [lia |]. simpl in *.
          by apply lookup_app_l_Some. }
        split; [done |]. intros _ Hy.
        pose proof (NoDup_lookup arr j (pred (length arr)) y Hnd Hjy Hy) as ->.
        apply lookup_lt_Some in Hj. rewrite length_app in Hj. simpl in Hj. lia.
Qed.

(** ** The error monad and the checked primitives *)

Lemma bind_Ok {A B} (f : A -> result B) (a : A) : (Ok a ≫= f) = f a.
Proof. reflexivity. Qed.

Lemma bind_Err {A B} (f : A -> result B) (e : error) : (Err e ≫= f) = Err e.
Proof. reflexivity. Qed.

Lemma bind_Ok_inv {A B} (f : A -> result B) (m : result A) (b : B) :
  (m ≫= f) = Ok b -> exists a, m = Ok a /\ f a = Ok b.
Proof. destruct m as [a|e]; [eauto | discriminate]. Qed.

Lemma require_Ok_inv (c : bool) (reason : string) (u : unit) :
  require c reason = Ok u -> c = true.
Proof. by destruct c. Qed.

Lemma checked_add_Ok_inv (a b c : N) :
  checked_add a b = Ok c -> c = a + b /\ a + b <= max_uint256.
Proof.
  unfold checked_add. destruct (N.leb_spec (a + b) max_uint256); [| discriminate].
  intros [= <-]. done.
Qed.

Lemma checked_add_Ok (a b : N) :
  a + b <= max_uint256 -> checked_add a b = Ok (a + b).
Proof.
  intros H. unfold checked_add. by destruct (N.leb_spec (a + b) max_uint256); [| lia].
Qed.

Lemma checked_sub_Ok (a b : N) : b <= a -> checked_sub a b = Ok (a - b).
Proof.
  intros H. unfold checked_sub. by destruct (N.leb_spec b a); [| lia].
Qed.

Lemma checked_sub_Ok_inv (a b c : N) :
  checked_sub a b = Ok c -> c = a - b /\ b <= a.
Proof.
  unfold checked_sub. destruct (N.leb_spec b a); [| discriminate].
  intros [= <-]. done.
Qed.

Lemma array_get_Ok (arr : list N) (i : nat) (z : N) :
  arr !! i = Some z -> array_get arr (N.of_nat i) = Ok z.
Proof. intros H. unfold array_get. by rewrite Nat2N.id, H. Qed.

Lemma array_set_Ok (arr : list N) (i : nat) (z : N) :
  (i < length arr)%nat -> array_set arr (N.of_nat i) z = Ok (<[i := z]> arr).
Proof.
  intros H. unfold array_set.
  destruct (N.ltb_spec (N.of_nat i) (N.of_nat (length arr))); [| lia].
  by rewrite Nat2N.id.
Qed.

Lemma array_pop_Ok (arr : list N) :
  (0 < length arr)%nat -> array_pop arr = Ok (removelast arr).
Proof. destruct arr; simpl; [lia | done]. Qed.

(** ** Reading a mapping after a write *)

Lemma default_insert {A} (m : gmap N A) (k j : N) (v d : A) :
  default d (<[k := v]> m !! j) = if decide (j = k) then v else default d (m !! j).
Proof.
  destruct (decide (j = k)) as [->|Hne].
  - by rewrite lookup_insert_eq.
  - by rewrite lookup_insert_ne.
Qed.

Lemma default_delete {A} (m : gmap N A) (k j : N) (d : A) :
  default d (delete k m !! j) = if decide (j = k) then d else default d (m !! j).
Proof.
  destruct (decide (j = k)) as [->|Hne].
  - by rewrite lookup_delete_eq.
  - by rewrite lookup_delete_ne.
Qed.

(** Writes to one storage variable leave the others as they are. *)

Lemma ownedTokens_at_set_balance a n s b :
  ownedTokens_at (set_balance a n s) b = ownedTokens_at s b.
Proof. reflexivity. Qed.

Lemma ownedTokenIndex_at_set_balance a n s j :
  ownedTokenIndex_at (set_balance a n s) j = ownedTokenIndex_at s j.
Proof. reflexivity. Qed.

Lemma ownedTokens_at_set_token k t s b :
  ownedTokens_at (set_token k t s) b = ownedTokens_at s b.
Proof. reflexivity. Qed.

Lemma ownedTokenIndex_at_set_token k t s j :
  ownedTokenIndex_at (set_token k t s) j = ownedTokenIndex_at s j.
Proof. reflexivity. Qed.

Lemma ownedTokens_at_FHE_allow h a s b :
  ownedTokens_at (FHE_allow h a s) b = ownedTokens_at s b.
Proof. reflexivity. Qed.

Lemma ownedTokenIndex_at_FHE_allow h a s j :
  ownedTokenIndex_at (FHE_allow h a s) j = ownedTokenIndex_at s j.
Proof. reflexivity. Qed.

Lemma tokens_at_FHE_allow h a s k :
  tokens_at (FHE_allow h a s) k = tokens_at s k.
Proof. reflexivity. Qed.

Lemma balances_at_FHE_allow h a s b :
  balances_at (FHE_allow h a s) b = balances_at s b.
Proof. reflexivity. Qed.

Lemma tokens_at_set_token k t s j :
  tokens_at (set_token k t s) j = if decide (j = k) then t else tokens_at s j.
Proof. unfold tokens_at. simpl. apply default_insert. Qed.

Lemma balances_at_set_balance a n s b :
  balances_at (set_balance a n s) b = if decide (b = a) then n else balances_at s b.
Proof. unfold balances_at. simpl. apply default_insert. Qed.

Lemma tokens_at_mkState_insert n (tokens : gmap N TokenData) k t b o i a j :
  tokens_at (mkState n (<[k := t]> tokens) b o i a) j =
  if decide (j = k) then t else default zeroToken (tokens !! j).
Proof. unfold tokens_at. simpl. apply default_insert. Qed.

(** ** The owner index *)

Lemma removeOwnedToken_spec (s : state) (a tokenId : N) (p : nat) :
  ownedTokens_at s a !! p = Some tokenId ->
  ownedTokenIndex_at s tokenId = N.of_nat p ->
  exists s',
    _removeOwnedToken a tokenId s = Ok s' /\
    _nextTokenId s' = _nextTokenId s /\
    _tokens s' = _tokens s /\
    _balances s' = _balances s /\
    acl s' = acl s /\
    (forall b, ownedTokens_at s' b =
       if decide (b = a) then swap_remove (ownedTokens_at s a) p
       else ownedTokens_at s b) /\
    (forall j, ownedTokenIndex_at s' j =
       if decide (j = tokenId) then 0
       else if decide (p <> pred (length (ownedTokens_at s a)) /\
                       ownedTokens_at s a !! pred (length (ownedTokens_at s a)) = Some j)
            then N.of_nat p
            else ownedTokenIndex_at s j).
Proof.
  intros Hp Hidx.
  assert (Hlt : (p < length (ownedTokens_at s a))%nat) by (by apply lookup_lt_Some in Hp).
  unfold _removeOwnedToken.
  rewrite checked_sub_Ok by lia. rewrite bind_Ok, Hidx.
  replace (N.of_nat (length (ownedTokens_at s a)) - 1)
    with (N.of_nat (pred (length (ownedTokens_at s a)))) by lia.
  unfold swap_remove.
  destruct (decide (p = pred (length (ownedTokens_at s a)))) as [Heq|Hne].
  - rewrite <- Heq, N.eqb_refl. simpl negb. cbv iota. rewrite bind_Ok.
    rewrite array_pop_Ok by lia. rewrite bind_Ok.
    eexists. split; [reflexivity |]. simpl.
    repeat (split; [reflexivity |]). split.
    + intros b. unfold ownedTokens_at at 1. simpl. by rewrite default_insert.
    + intros j. unfold ownedTokenIndex_at at 1. simpl. rewrite default_delete.
      destruct (decide (j = tokenId)); [done |].
      rewrite decide_False by tauto. done.
  - destruct (N.eqb_spec (N.of_nat p) (N.of_nat (pred (length (ownedTokens_at s a)))))
      as [Hcontra|_]; [lia |].
    simpl negb. cbv iota.
    destruct (ownedTokens_at s a !! pred (length (ownedTokens_at s a))) as [z|] eqn:Hz.
    2: { apply lookup_ge_None in Hz. lia. }
    rewrite (array_get_Ok _ _ z Hz), bind_Ok.
    rewrite array_set_Ok by lia. rewrite !bind_Ok.
    assert (Hown : ownedTokens_at
               (set_index z (N.of_nat p)
                  (set_owned a (<[p := z]> (ownedTokens_at s a)) s)) a
             = <[p := z]> (ownedTokens_at s a)).
    { unfold ownedTokens_at at 1. simpl. by rewrite default_insert, decide_True. }
    rewrite Hown, array_pop_Ok by (rewrite length_insert; lia).
    rewrite bind_Ok.
    eexists. split; [reflexivity |]. simpl.
    repeat (split; [reflexivity |]). split.
    + intros b. unfold ownedTokens_at at 1. simpl. rewrite !default_insert.
      by destruct (decide (b = a)).
    + intros j. unfold ownedTokenIndex_at at 1. simpl.
      rewrite default_delete, default_insert.
      destruct (decide (j = tokenId)); [done |].
      destruct (decide (j = z)) as [->|Hjz].
      * by rewrite decide_True.
      * rewrite decide_False; [done |]. intros [_ [= ->]]. done.
Qed.

Lemma addOwnedToken_spec (s : state) (a tokenId : N) :
  _nextTokenId (_addOwnedToken a tokenId s) = _nextTokenId s /\
  _tokens (_addOwnedToken a tokenId s) = _tokens s /\
  _balances (_addOwnedToken a tokenId s) = _balances s /\
  acl (_addOwnedToken a tokenId s) = acl s /\
  (forall b, ownedTokens_at (_addOwnedToken a tokenId s) b =
     if decide (b = a) then ownedTokens_at s a ++ [tokenId]
     else ownedTokens_at s b) /\
  (forall j, ownedTokenIndex_at (_addOwnedToken a tokenId s) j =
     if decide (j = tokenId) then N.of_nat (length (ownedTokens_at s a))
     else ownedTokenIndex_at s j).
Proof.
  unfold _addOwnedToken. simpl. repeat (split; [reflexivity |]). split.
  - intros b. unfold ownedTokens_at at 1. simpl. by rewrite default_insert.
  - intros j. unfold ownedTokenIndex_at at 1. simpl. by rewrite default_insert.
Qed.

(** ** [transferFrom] *)

Lemma getToken_Ok_inv (s : state) (tokenId : N) (token : TokenData) :
  _getToken tokenId s = Ok token ->
  token = tokens_at s tokenId /\ owner (tokens_at s tokenId) <> 0.
Proof.
  unfold _getToken. intros H.
  apply bind_Ok_inv in H as (u & Hreq & H). apply require_Ok_inv in Hreq.
  injection H as <-. split; [done |].
  apply negb_true_iff, N.eqb_neq in Hreq. done.
Qed.

Lemma getToken_Ok (s : state) (tokenId : N) :
  owner (tokens_at s tokenId) <> 0 -> _getToken tokenId s = Ok (tokens_at s tokenId).
Proof.
  intros H. unfold _getToken. apply N.eqb_neq in H. by rewrite H.
Qed.

Lemma getToken_Err (s : state) (tokenId : N) :
  owner (tokens_at s tokenId) = 0 ->
  _getToken tokenId s = Err (Revert "Token does not exist").
Proof.
  intros H. unfold _getToken. by rewrite H.
Qed.

(** The four checks of [transferFrom], read off a successful call. *)
Lemma transferFrom_checks (sender from to tokenId : N) (s s' : state) evs :
  transferFrom sender from to tokenId s = Ok (s', evs) ->
  owner (tokens_at s tokenId) = from /\ from <> 0 /\ sender = from /\ to <> 0.
Proof.
  unfold transferFrom. intros H.
  apply bind_Ok_inv in H as (token & Htok & H).
  apply getToken_Ok_inv in Htok as [-> Hex].
  apply bind_Ok_inv in H as (u1 & Hr1 & H). apply require_Ok_inv, N.eqb_eq in Hr1.
  apply bind_Ok_inv in H as (u2 & Hr2 & H). apply require_Ok_inv, N.eqb_eq in Hr2.
  apply bind_Ok_inv in H as (u3 & Hr3 & H).
  apply require_Ok_inv, negb_true_iff, N.eqb_neq in Hr3.
  repeat split; congruence.
Qed.

(** In a state that satisfies the invariant, a token is in its owner's
    array, at the position the reverse index records. *)
Lemma wf_position (s : state) (a tokenId : N) :
  wf s -> owner (tokens_at s tokenId) = a -> a <> 0 ->
  exists p, ownedTokens_at s a !! p = Some tokenId /\
            ownedTokenIndex_at s tokenId = N.of_nat p.
Proof.
  intros Hwf Ho Ha.
  assert (Hin : tokenId ∈ ownedTokens_at s a) by (by apply (wf_owned s Hwf)).
  apply list_elem_of_lookup in Hin as [p Hp].
  exists p. split; [done |]. by apply (wf_index s Hwf a).
Qed.

Lemma transferFrom_Ok_inv (sender from to tokenId : N) (s s' : state) evs :
  wf s -> transferFrom sender from to tokenId s = Ok (s', evs) ->
  exists p,
    ownedTokens_at s from !! p = Some tokenId /\
    ownedTokenIndex_at s tokenId = N.of_nat p /\
    1 <= balances_at s from /\
    (if decide (to = from) then balances_at s from - 1 else balances_at s to) + 1
      <= max_uint256 /\
    transfer_post s from to tokenId p s' /\
    evs = [Transfer from to tokenId; DecryptPermissionGranted tokenId to].
Proof.
  intros Hwf H.
  destruct (transferFrom_checks _ _ _ _ _ _ _ H) as (Ho & Hfrom & -> & Hto).
  destruct (wf_position s from tokenId Hwf Ho Hfrom) as (p & Hp & Hidx).
  exists p. split; [done |]. split; [done |].
  unfold transferFrom in H.
  rewrite getToken_Ok in H by congruence. rewrite bind_Ok in H.
  rewrite Ho, N.eqb_refl in H. simpl in H.
  apply N.eqb_neq in Hto as Hto'. rewrite Hto' in H. simpl in H.
  apply bind_Ok_inv in H as (b1 & Hb1 & H).
  apply checked_sub_Ok_inv in Hb1 as [-> Hge].
  apply bind_Ok_inv in H as (b2 & Hb2 & H).
  apply checked_add_Ok_inv in Hb2 as [-> Hle].
  assert (Hbt : balances_at (set_balance from (balances_at s from - 1) s) to
                = if decide (to = from) then balances_at s from - 1
                  else balances_at s to).
  { apply balances_at_set_balance. }
  rewrite Hbt in H, Hle.
  split; [done |]. split; [done |].
  apply bind_Ok_inv in H as (s3 & Hrm & H).
  match type of Hrm with _removeOwnedToken _ _ ?s2 = _ =>
    destruct (removeOwnedToken_spec s2 from tokenId p Hp Hidx)
      as (s3' & Hrm' & Hn3 & Ht3 & Hb3 & Ha3 & Hown3 & Hidx3)
  end.
  rewrite Hrm in Hrm'. injection Hrm' as <-.
  destruct (addOwnedToken_spec s3 to tokenId) as (Hn4 & Ht4 & Hb4 & Ha4 & Hown4 & Hidx4).
  injection H as <- <-. split; [| done].
  assert (Htok3 : tokens_at (_addOwnedToken to tokenId s3) tokenId = tokens_at s tokenId).
  { unfold tokens_at. by rewrite Ht4, Ht3. }
  constructor.
  - cbn [FHE_allow set_token _nextTokenId]. by rewrite Hn4, Hn3.
  - cbn [FHE_allow set_token _tokens]. rewrite Htok3. by rewrite Ht4, Ht3.
  - cbn [FHE_allow set_token _balances]. by rewrite Hb4, Hb3.
  - cbn [FHE_allow acl]. f_equal.
    + unfold tokens_at at 1. cbn [set_token _tokens].
      rewrite lookup_insert_eq. cbn [default id realOwner]. by rewrite Htok3.
    + cbn [set_token acl]. by rewrite Ha4, Ha3.
  - intros b.
    rewrite ownedTokens_at_FHE_allow, ownedTokens_at_set_token.
    rewrite Hown4, !Hown3. rewrite !ownedTokens_at_set_balance.
    destruct (decide (b = to)) as [->|Hbto]; [| done].
    by destruct (decide (to = from)).
  - intros j.
    rewrite ownedTokenIndex_at_FHE_allow, ownedTokenIndex_at_set_token.
    rewrite Hidx4, Hidx3, Hown3.
    rewrite !ownedTokens_at_set_balance, !ownedTokenIndex_at_set_balance.
    destruct (decide (j = tokenId)); [| done].
    by destruct (decide (to = from)).
Qed.

(** A transfer keeps the invariant. *)
Lemma transfer_post_wf (s s' : state) (from to tokenId : N) (p : nat) :
  wf s ->
  owner (tokens_at s tokenId) = from -> from <> 0 -> to <> 0 ->
  ownedTokens_at s from !! p = Some tokenId ->
  transfer_post s from to tokenId p s' ->
  wf s'.
Proof.
  intros Hwf Ho Hfrom Hto Hp Htp.
  pose proof (wf_nodup s Hwf from) as Hnd.
  destruct (swap_remove_spec _ p tokenId Hnd Hp) as (Hlen & Hnd' & Hmem & Hpos).
  assert (Htok : forall j, tokens_at s' j =
            if decide (j = tokenId)
            then mkTokenData to (realOwner (tokens_at s tokenId))
                   (metadataURI (tokens_at s tokenId))
            else tokens_at s j).
  { intros j. unfold tokens_at at 1. rewrite (tp_tokens _ _ _ _ _ _ Htp).
    apply default_insert. }
  assert (Hbal : forall a, balances_at s' a =
            if decide (a = to)
            then (if decide (to = from) then balances_at s from - 1
                  else balances_at s to) + 1
            else if decide (a = from) then balances_at s from - 1
            else balances_at s a).
  { intros a. unfold balances_at at 1. rewrite (tp_balances _ _ _ _ _ _ Htp).
    by rewrite !default_insert. }
  assert (Hb1 : balances_at s from = N.of_nat (S (length (swap_remove (ownedTokens_at s from) p)))).
  { rewrite Hlen. apply (wf_balance s Hwf). }
  assert (Hnotin : to <> from -> tokenId ∉ ownedTokens_at s to).
  { intros Hne Hin. apply (wf_owned s Hwf) in Hin as [Hin _]. congruence. }
  constructor.
  - rewrite (tp_next _ _ _ _ _ _ Htp). apply (wf_next s Hwf).
  - intros j. rewrite Htok, (tp_next _ _ _ _ _ _ Htp).
    destruct (decide (j = tokenId)) as [->|Hj]; [| apply (wf_exists s Hwf)].
    simpl. split; [intros _ | done].
    apply (wf_exists s Hwf). congruence.
  - intros a. rewrite Hbal, (tp_owned _ _ _ _ _ _ Htp).
    destruct (decide (a = to)) as [->|Hato].
    + rewrite length_app. simpl.
      destruct (decide (to = from)) as [->|Htf].
      * rewrite Hb1. lia.
      * rewrite (wf_balance s Hwf to). lia.
    + destruct (decide (a = from)) as [->|Haf].
      * rewrite Hb1. lia.
      * apply (wf_balance s Hwf).
  - intros a. rewrite (tp_owned _ _ _ _ _ _ Htp).
    destruct (decide (a = to)) as [->|Hato].
    + apply NoDup_app. destruct (decide (to = from)) as [->|Htf].
      * split; [done |]. split; [| apply NoDup_singleton].
        intros x Hx Hx'. apply list_elem_of_singleton in Hx'. subst x.
        by apply Hmem in Hx as [_ Hx].
      * split; [apply (wf_nodup s Hwf) |]. split; [| apply NoDup_singleton].
        intros x Hx Hx'. apply list_elem_of_singleton in Hx'. subst x.
        by apply Hnotin.
    + destruct (decide (a = from)) as [->|Haf]; [done | apply (wf_nodup s Hwf)].
  - intros a j. rewrite (tp_owned _ _ _ _ _ _ Htp), Htok.
    pose proof (wf_owned s Hwf a j) as Hoa.
    pose proof (wf_owned s Hwf from j) as Hof.
    destruct (decide (a = to)) as [->|Hato].
    + rewrite elem_of_app, list_elem_of_singleton.
      destruct (decide (j = tokenId)) as [->|Hj]; [simpl; tauto |].
      destruct (decide (to = from)) as [->|Htf].
      * rewrite Hmem. tauto.
      * tauto.
    + destruct (decide (a = from)) as [->|Haf].
      * rewrite Hmem.
        destruct (decide (j = tokenId)) as [->|Hj]; [simpl | tauto].
        split; [tauto | intros [? _]; congruence].
      * destruct (decide (j = tokenId)) as [->|Hj]; [simpl | tauto].
        split; [| intros [? _]; congruence].
        intros Hin. apply Hoa in Hin as [Hin _]. congruence.
  - intros a i j. rewrite (tp_owned _ _ _ _ _ _ Htp), (tp_index _ _ _ _ _ _ Htp).
    assert (Hmoved : forall z,
      ownedTokens_at s from !! pred (length (ownedTokens_at s from)) = Some z ->
      owner (tokens_at s z) = from).
    { intros z Hz. apply list_elem_of_lookup_2 in Hz.
      by apply (wf_owned s Hwf) in Hz as [Hz _]. }
    assert (Hsr : forall i j,
      swap_remove (ownedTokens_at s from) p !! i = Some j ->
      (if decide (p <> pred (length (ownedTokens_at s from)) /\
                  ownedTokens_at s from !! pred (length (ownedTokens_at s from)) = Some j)
       then N.of_nat p else ownedTokenIndex_at s j) = N.of_nat i).
    { intros i' j' Hi'. destruct (Hpos i' j' Hi') as [(Hne & -> & Hz)|[Hi'' Hnz]].
      - by rewrite decide_True.
      - rewrite decide_False by tauto. by apply (wf_index s Hwf from). }
    assert (Hother : forall b i j, b <> from ->
      ownedTokens_at s b !! i = Some j ->
      (if decide (p <> pred (length (ownedTokens_at s from)) /\
                  ownedTokens_at s from !! pred (length (ownedTokens_at s from)) = Some j)
       then N.of_nat p else ownedTokenIndex_at s j) = N.of_nat i).
    { intros b i' j' Hb Hi'. rewrite decide_False.
      - by apply (wf_index s Hwf b).
      - intros [_ Hz]. apply Hmoved in Hz.
        apply list_elem_of_lookup_2, (wf_owned s Hwf) in Hi' as [Hi' _]. congruence. }
    destruct (decide (a = to)) as [->|Hato].
    + intros Hi. apply lookup_app_Some in Hi as [Hi|[Hge Hi]].
      * destruct (decide (to = from)) as [->|Htf].
        -- rewrite decide_False; [by apply Hsr |].
           intros ->. apply list_elem_of_lookup_2, Hmem in Hi as [_ Hi]. done.
        -- rewrite decide_False; [by apply (Hother to) |].
           intros ->. apply list_elem_of_lookup_2 in Hi. by apply Hnotin.
      * apply list_lookup_singleton_Some in Hi as [Hi ->].
        rewrite decide_True by done. f_equal. lia.
    + destruct (decide (a = from)) as [->|Haf].
      * intros Hi. rewrite decide_False; [by apply Hsr |].
        intros ->. apply list_elem_of_lookup_2, Hmem in Hi as [_ Hi]. done.
      * intros Hi. rewrite decide_False; [by apply (Hother a) |].
        intros ->. apply list_elem_of_lookup_2, (wf_owned s Hwf) in Hi as [Hi _].
        congruence.
  - rewrite (tp_balances _ _ _ _ _ _ Htp), (tp_next _ _ _ _ _ _ Htp).
    rewrite <- (wf_sum s Hwf).
    pose proof (sum_values_insert (_balances s) from (balances_at s from - 1)) as H1.
    pose proof (sum_values_insert
                  (<[from := balances_at s from - 1]> (_balances s)) to
                  ((if decide (to = from) then balances_at s from - 1
                    else balances_at s to) + 1)) as H2.
    rewrite default_insert in H2.
    fold (balances_at s from) in H1. fold (balances_at s to) in H2.
    destruct (decide (to = from)); lia.
Qed.

Lemma transferFrom_wf (sender from to tokenId : N) (s s' : state) evs :
  wf s -> transferFrom sender from to tokenId s = Ok (s', evs) -> wf s'.
Proof.
  intros Hwf H.
  destruct (transferFrom_checks _ _ _ _ _ _ _ H) as (Ho & Hfrom & _ & Hto).
  destruct (transferFrom_Ok_inv _ _ _ _ _ _ _ Hwf H) as (p & Hp & _ & _ & _ & Htp & _).
  by apply (transfer_post_wf s s' from to tokenId p).
Qed.

Section Ledger.

Variable this : address.
Variable verifyInput :
  address -> address -> externalEaddress -> bytes -> option eaddress.

Local Abbreviation mint := (mint this verifyInput).
Local Abbreviation exec := (exec this verifyInput).
Local Abbreviation apply_call := (apply_call this verifyInput).
Local Abbreviation run := (run this verifyInput).
Local Abbreviation reachable := (reachable this verifyInput).

(** ** [mint] *)

Lemma mint_Ok_inv sender uri ct proof s tokenId s' evs :
  mint sender uri ct proof s = Ok (tokenId, s', evs) ->
  exists handle,
    verifyInput this sender ct proof = Some handle /\
    tokenId = _nextTokenId s /\
    _nextTokenId s + 1 <= max_uint256 /\
    balances_at s sender + 1 <= max_uint256 /\
    s' = mkState (_nextTokenId s + 1)
           (<[tokenId := mkTokenData sender handle uri]> (_tokens s))
           (<[sender := balances_at s sender + 1]> (_balances s))
           (<[sender := ownedTokens_at s sender ++ [tokenId]]> (_ownedTokens s))
           (<[tokenId := N.of_nat (length (ownedTokens_at s sender))]>
              (_ownedTokenIndex s))
           ({[ (handle, sender) ]} ∪ ({[ (handle, this) ]} ∪ acl s)) /\
    evs = [Transfer 0 sender tokenId; Minted sender tokenId uri;
           DecryptPermissionGranted tokenId sender].
Proof.
  unfold mint, FHE_fromExternal. intros H.
  destruct (verifyInput this sender ct proof) as [handle|] eqn:Hv; [| discriminate].
  rewrite bind_Ok in H.
  apply bind_Ok_inv in H as (next & Hnext & H).
  apply checked_add_Ok_inv in Hnext as [-> Hle].
  apply bind_Ok_inv in H as (b & Hb & H).
  apply checked_add_Ok_inv in Hb as [-> Hble].
  injection H as <- <- <-.
  exists handle. repeat (split; [done |]). done.
Qed.


(** A mint by a sender other than the zero address keeps the invariant. *)
Lemma mint_wf sender uri ct proof s tokenId s' evs :
  wf s -> sender <> 0 ->
  mint sender uri ct proof s = Ok (tokenId, s', evs) -> wf s'.
Proof.
  intros Hwf Hsender H.
  apply mint_Ok_inv in H as (handle & _ & -> & Hle & Hble & -> & _).
  pose proof (wf_next s Hwf) as [Hn1 _].
  assert (Hfresh : forall a, _nextTokenId s ∉ ownedTokens_at s a).
  { intros a Hin. apply (wf_owned s Hwf) in Hin as [Ho Ha].
    assert (Hex : owner (tokens_at s (_nextTokenId s)) <> 0) by congruence.
    apply (wf_exists s Hwf) in Hex. lia. }
  constructor; simpl.
  - lia.
  - intros j. unfold tokens_at. simpl. rewrite default_insert.
    destruct (decide (j = _nextTokenId s)) as [->|Hj]; simpl.
    + split; [lia | done].
    + fold (tokens_at s j). rewrite (wf_exists s Hwf j). lia.
  - intros a. unfold balances_at, ownedTokens_at. simpl. rewrite !default_insert.
    destruct (decide (a = sender)) as [->|Ha].
    + rewrite length_app. simpl. fold (ownedTokens_at s sender).
      pose proof (wf_balance s Hwf sender) as Hb. unfold balances_at in Hb.
      rewrite Hb. lia.
    + apply (wf_balance s Hwf).
  - intros a. unfold ownedTokens_at. simpl. rewrite default_insert.
    destruct (decide (a = sender)) as [->|Ha]; [| apply (wf_nodup s Hwf)].
    apply NoDup_app. split; [apply (wf_nodup s Hwf) |].
    split; [| apply NoDup_singleton].
    intros x Hx Hx'. apply list_elem_of_singleton in Hx'. subst x.
    by apply (Hfresh sender).
  - intros a j. unfold ownedTokens_at, tokens_at. simpl. rewrite !default_insert.
    fold (ownedTokens_at s sender). fold (ownedTokens_at s a). fold (tokens_at s j).
    pose proof (wf_owned s Hwf a j) as Hoa.
    destruct (decide (a = sender)) as [->|Ha].
    + rewrite elem_of_app, list_elem_of_singleton.
      destruct (decide (j = _nextTokenId s)) as [->|Hj]; simpl; tauto.
    + destruct (decide (j = _nextTokenId s)) as [->|Hj]; simpl; [| tauto].
      split; [| intros [? _]; congruence].
      intros Hin. by apply Hfresh in Hin.
  - intros a i j. unfold ownedTokens_at, ownedTokenIndex_at. simpl.
    rewrite !default_insert.
    fold (ownedTokens_at s sender). fold (ownedTokens_at s a).
    fold (ownedTokenIndex_at s j).
    destruct (decide (a = sender)) as [->|Ha].
    + intros Hi. apply lookup_app_Some in Hi as [Hi|[Hge Hi]].
      * rewrite decide_False; [by apply (wf_index s Hwf sender) |].
        intros ->. apply list_elem_of_lookup_2 in Hi. by apply Hfresh in Hi.
      * apply list_lookup_singleton_Some in Hi as [Hi ->].
        rewrite decide_True by done. f_equal. lia.
    + intros Hi. rewrite decide_False; [by apply (wf_index s Hwf a) |].
      intros ->. apply list_elem_of_lookup_2 in Hi. by apply Hfresh in Hi.
  - pose proof (sum_values_insert (_balances s) sender (balances_at s sender + 1)) as Hs.
    fold (balances_at s sender) in Hs. rewrite (wf_sum s Hwf) in Hs. lia.
Qed.

(** ** [grantDecryptPermission] *)

Lemma grant_Ok_inv sender tokenId account s s' evs :
  grantDecryptPermission sender tokenId account s = Ok (s', evs) ->
  owner (tokens_at s tokenId) <> 0 /\
  sender = owner (tokens_at s tokenId) /\
  account <> 0 /\
  s' = FHE_allow (realOwner (tokens_at s tokenId)) account s /\
  evs = [DecryptPermissionGranted tokenId account].
Proof.
  unfold grantDecryptPermission. intros H.
  apply bind_Ok_inv in H as (token & Htok & H).
  apply getToken_Ok_inv in Htok as [-> Hex].
  apply bind_Ok_inv in H as (u1 & Hr1 & H). apply require_Ok_inv, N.eqb_eq in Hr1.
  apply bind_Ok_inv in H as (u2 & Hr2 & H).
  apply require_Ok_inv, negb_true_iff, N.eqb_neq in Hr2.
  injection H as <- <-. done.
Qed.

Lemma grant_Ok sender tokenId account s :
  owner (tokens_at s tokenId) <> 0 ->
  sender = owner (tokens_at s tokenId) ->
  account <> 0 ->
  grantDecryptPermission sender tokenId account s =
    Ok (FHE_allow (realOwner (tokens_at s tokenId)) account s,
        [DecryptPermissionGranted tokenId account]).
Proof.
  intros Hex -> Hacc. unfold grantDecryptPermission.
  rewrite getToken_Ok by done. rewrite bind_Ok, N.eqb_refl. simpl.
  apply N.eqb_neq in Hacc. by rewrite Hacc.
Qed.

(** A grant writes to the ACL only. *)
Lemma FHE_allow_wf handle account s : wf s -> wf (FHE_allow handle account s).
Proof. intros [H1 H2 H3 H4 H5 H6 H7]. by constructor. Qed.

(** ** Execution of calls *)

Lemma exec_SafeTransferFrom sender from to tokenId rcv s :
  exec (SafeTransferFrom sender from to tokenId rcv) s =
  '(s1, evs) ← transferFrom sender from to tokenId s;
  let '(s2, ok) := _checkOnERC721Received apply_call rcv s1 in
  _ ← require ok "Invalid receiver";
  Ok (s2, evs).
Proof. reflexivity. Qed.

Lemma exec_SafeTransferFromData sender from to tokenId data rcv s :
  exec (SafeTransferFromData sender from to tokenId data rcv) s =
  exec (SafeTransferFrom sender from to tokenId rcv) s.
Proof. reflexivity. Qed.

Lemma receiver_all_Forall (P : call -> Prop) rcv :
  receiver_all P rcv <-> Forall P (reentered rcv).
Proof.
  destruct rcv as [| |calls retval]; simpl; [by split | by split |].
  induction calls as [|c cs IH]; simpl.
  - by split.
  - rewrite Forall_cons. tauto.
Qed.

(** A successful safe transfer is a transfer followed by the calls the
    callback re-entered with. *)
Lemma exec_SafeTransferFrom_Ok_inv sender from to tokenId rcv s s' evs :
  exec (SafeTransferFrom sender from to tokenId rcv) s = Ok (s', evs) ->
  exists s1,
    transferFrom sender from to tokenId s = Ok (s1, evs) /\
    s' = run (reentered rcv) s1.
Proof.
  rewrite exec_SafeTransferFrom. intros H.
  apply bind_Ok_inv in H as ([s1 evs1] & Htr & H).
  destruct rcv as [| |calls retval]; simpl in H.
  - injection H as <- <-. by exists s1.
  - discriminate.
  - apply bind_Ok_inv in H as (u & _ & H). injection H as <- <-.
    by exists s1.
Qed.

Lemma run_nil s : run [] s = s.
Proof. reflexivity. Qed.

Lemma run_cons c cs s : run (c :: cs) s = run cs (apply_call c s).
Proof. reflexivity. Qed.

Lemma run_app cs1 cs2 s : run (cs1 ++ cs2) s = run cs2 (run cs1 s).
Proof. unfold run. apply fold_left_app. Qed.

(** A property of states that every successful call carries over is carried
    over by every sequence of calls. *)
Lemma run_preserves (Q : state -> Prop) (V : call -> Prop) cs s :
  (forall c s, V c -> Q s -> Q (apply_call c s)) ->
  Forall V cs -> Q s -> Q (run cs s).
Proof.
  intros Hstep Hcs. revert s.
  induction Hcs as [|c cs Hc _ IH]; intros s Hs; [done |].
  rewrite run_cons. apply IH. by apply Hstep.
Qed.

(** ** The invariant holds in every state of the contract *)

Lemma exec_wf c : forall s s' evs,
  valid_call c -> wf s -> exec c s = Ok (s', evs) -> wf s'.
Proof.
  induction c as [sender uri ct proof|sender tokenId account|sender from to tokenId
                 |sender from to tokenId rcv IH|sender from to tokenId data rcv IH]
    using call_nested_ind; intros s s' evs Hv Hwf H.
  - simpl in H. apply bind_Ok_inv in H as ([[tokenId s1] evs1] & Hm & H).
    injection H as <- <-. destruct Hv as [Hs _].
    by apply (mint_wf _ _ _ _ _ _ _ _ Hwf Hs Hm).
  - simpl in H. apply grant_Ok_inv in H as (_ & _ & _ & -> & _).
    by apply FHE_allow_wf.
  - simpl in H. by apply (transferFrom_wf _ _ _ _ _ _ _ Hwf H).
  - apply exec_SafeTransferFrom_Ok_inv in H as (s1 & Htr & ->).
    destruct Hv as [_ Hv]. apply receiver_all_Forall in Hv, IH.
    apply transferFrom_wf in Htr; [| done].
    revert Hv IH s1 Htr. generalize (reentered rcv). intros cs Hv IH.
    induction cs as [|c cs IHcs]; intros s1 Hs1; [done |].
    rewrite run_cons. apply Forall_cons in Hv as [Hc Hv], IH as [IHc IH].
    apply IHcs; [done | done |].
    unfold apply_call. destruct (exec c s1) as [[s2 evs2]|e] eqn:He; [| done].
    by apply (IHc s1 s2 evs2).
  - rewrite exec_SafeTransferFromData in H.
    apply exec_SafeTransferFrom_Ok_inv in H as (s1 & Htr & ->).
    destruct Hv as [_ Hv]. apply receiver_all_Forall in Hv, IH.
    apply transferFrom_wf in Htr; [| done].
    revert Hv IH s1 Htr. generalize (reentered rcv). intros cs Hv IH.
    induction cs as [|c cs IHcs]; intros s1 Hs1; [done |].
    rewrite run_cons. apply Forall_cons in Hv as [Hc Hv], IH as [IHc IH].
    apply IHcs; [done | done |].
    unfold apply_call. destruct (exec c s1) as [[s2 evs2]|e] eqn:He; [| done].
    by apply (IHc s1 s2 evs2).
Qed.

Lemma apply_call_wf c s : valid_call c -> wf s -> wf (apply_call c s).
Proof.
  intros Hv Hwf. unfold apply_call.
  destruct (exec c s) as [[s' evs]|e] eqn:He; [| done].
  by apply (exec_wf c s s' evs).
Qed.

Lemma deployed_wf : wf deployed.
Proof.
  constructor; simpl.
  - unfold max_uint256. lia.
  - intros j. unfold tokens_at. simpl. rewrite lookup_empty. simpl. lia.
  - intros a. reflexivity.
  - intros a. apply NoDup_nil_2.
  - intros a j. unfold ownedTokens_at, tokens_at. simpl. rewrite !lookup_empty. simpl.
    split; [by intros ?%not_elem_of_nil | intros [<- ?]; done].
  - intros a i j. unfold ownedTokens_at. simpl. rewrite lookup_empty. simpl. done.
  - reflexivity.
Qed.

Lemma reachable_wf s : reachable s -> wf s.
Proof.
  intros (cs & Hcs & <-).
  apply (run_preserves wf valid_call); [| done | apply deployed_wf].
  intros c s. apply apply_call_wf.
Qed.

Lemma reachable_deployed : reachable deployed.
Proof. by exists []. Qed.

Lemma reachable_step c s : valid_call c -> reachable s -> reachable (apply_call c s).
Proof.
  intros Hc (cs & Hcs & <-). exists (cs ++ [c]). split.
  - apply Forall_app. split; [done |]. by apply Forall_singleton.
  - by rewrite run_app.
Qed.

Lemma reachable_run cs s : Forall valid_call cs -> reachable s -> reachable (run cs s).
Proof.
  intros Hcs. apply (run_preserves (fun s => reachable s) valid_call); [| done].
  intros c s'. apply reachable_step.
Qed.

(** ** What a call leaves alone, in any state *)

Lemma removeOwnedToken_frame a tokenId s s' :
  _removeOwnedToken a tokenId s = Ok s' ->
  _nextTokenId s' = _nextTokenId s /\ _tokens s' = _tokens s /\
  _balances s' = _balances s /\ acl s' = acl s.
Proof.
  unfold _removeOwnedToken. intros H.
  apply bind_Ok_inv in H as (lastIndex & _ & H).
  apply bind_Ok_inv in H as (s1 & Hs1 & H).
  apply bind_Ok_inv in H as (arr & _ & H). injection H as <-. simpl.
  destruct (negb _) in Hs1.
  - apply bind_Ok_inv in Hs1 as (z & _ & Hs1).
    apply bind_Ok_inv in Hs1 as (arr' & _ & Hs1). by injection Hs1 as <-.
  - by injection Hs1 as <-.
Qed.

Lemma transferFrom_frame sender from to tokenId s s' evs :
  transferFrom sender from to tokenId s = Ok (s', evs) ->
  _nextTokenId s' = _nextTokenId s /\
  _tokens s' =
    <[tokenId := mkTokenData to (realOwner (tokens_at s tokenId))
                   (metadataURI (tokens_at s tokenId))]> (_tokens s) /\
  acl s' = {[ (realOwner (tokens_at s tokenId), to) ]} ∪ acl s.
Proof.
  intros H. unfold transferFrom in H.
  apply bind_Ok_inv in H as (token & Htok & H).
  apply getToken_Ok_inv in Htok as [-> Hex].
  apply bind_Ok_inv in H as (u1 & _ & H).
  apply bind_Ok_inv in H as (u2 & _ & H).
  apply bind_Ok_inv in H as (u3 & _ & H).
  apply bind_Ok_inv in H as (b1 & _ & H).
  apply bind_Ok_inv in H as (b2 & _ & H).
  apply bind_Ok_inv in H as (s3 & Hrm & H).
  apply removeOwnedToken_frame in Hrm as (Hn3 & Ht3 & _ & Ha3). simpl in Hn3, Ht3, Ha3.
  destruct (addOwnedToken_spec s3 to tokenId) as (Hn4 & Ht4 & _ & Ha4 & _).
  assert (Htok3 : tokens_at (_addOwnedToken to tokenId s3) tokenId = tokens_at s tokenId).
  { unfold tokens_at. by rewrite Ht4, Ht3. }
  injection H as <- <-.
  split; [| split].
  - cbn [FHE_allow set_token _nextTokenId]. by rewrite Hn4, Hn3.
  - cbn [FHE_allow set_token _tokens]. rewrite Htok3. by rewrite Ht4, Ht3.
  - cbn [FHE_allow acl]. f_equal.
    + unfold tokens_at at 1. cbn [set_token _tokens].
      rewrite lookup_insert_eq. cbn [default id realOwner]. by rewrite Htok3.
    + cbn [set_token acl]. by rewrite Ha4, Ha3.
Qed.

(** No call removes a pair from the ACL. *)
Lemma exec_acl_mono c : forall s s' evs,
  exec c s = Ok (s', evs) -> acl s ⊆ acl s'.
Proof.
  assert (Hsafe : forall sender from to tokenId rcv,
    receiver_all (fun c => forall s s' evs, exec c s = Ok (s', evs) -> acl s ⊆ acl s') rcv ->
    forall s s' evs,
      exec (SafeTransferFrom sender from to tokenId rcv) s = Ok (s', evs) ->
      acl s ⊆ acl s').
  { intros sender from to tokenId rcv IH s s' evs H.
    apply exec_SafeTransferFrom_Ok_inv in H as (s1 & Htr & ->).
    apply transferFrom_frame in Htr as (_ & _ & Ha).
    assert (Hs1 : acl s ⊆ acl s1) by (rewrite Ha; apply union_subseteq_r).
    clear Ha. apply receiver_all_Forall in IH.
    revert IH s1 Hs1. generalize (reentered rcv). intros cs IH.
    induction cs as [|c0 cs IHcs]; intros s1 Hs1; [done |].
    rewrite run_cons. apply Forall_cons in IH as [IHc IH].
    apply IHcs; [done |]. unfold apply_call.
    destruct (exec c0 s1) as [[s2 evs2]|e] eqn:He; [| done].
    etrans; [exact Hs1 | by apply (IHc s1 s2 evs2)]. }
  induction c as [sender uri ct proof|sender tokenId account|sender from to tokenId
                 |sender from to tokenId rcv IH|sender from to tokenId data rcv IH]
    using call_nested_ind; intros s s' evs H.
  - simpl in H. apply bind_Ok_inv in H as ([[tokenId s1] evs1] & Hm & H).
    injection H as <- <-.
    apply mint_Ok_inv in Hm as (handle & _ & _ & _ & _ & -> & _). simpl.
    etrans; [| apply union_subseteq_r]. apply union_subseteq_r.
  - simpl in H. apply grant_Ok_inv in H as (_ & _ & _ & -> & _). simpl.
    apply union_subseteq_r.
  - simpl in H. apply transferFrom_frame in H as (_ & _ & ->).
    apply union_subseteq_r.
  - exact (Hsafe sender from to tokenId rcv IH s s' evs H).
  - rewrite exec_SafeTransferFromData in H.
    exact (Hsafe sender from to tokenId rcv IH s s' evs H).
Qed.

Lemma apply_call_acl_mono c s : acl s ⊆ acl (apply_call c s).
Proof.
  unfold apply_call. destruct (exec c s) as [[s' evs]|e] eqn:He; [| done].
  by apply (exec_acl_mono c s s' evs).
Qed.

Lemma run_acl_mono cs s : acl s ⊆ acl (run cs s).
Proof.
  revert s. induction cs as [|c cs IH]; intros s; [done |].
  rewrite run_cons. etrans; [apply (apply_call_acl_mono c) | apply IH].
Qed.

(** ** The ciphertext handle and the metadata of a token that exists *)

Lemma transferFrom_same_content sender from to tokenId s s' evs j :
  transferFrom sender from to tokenId s = Ok (s', evs) ->
  owner (tokens_at s j) <> 0 -> same_content s s' j.
Proof.
  intros H Hj.
  destruct (transferFrom_checks _ _ _ _ _ _ _ H) as (_ & _ & _ & Hto).
  apply transferFrom_frame in H as (_ & Ht & _).
  assert (Htok : tokens_at s' j =
            if decide (j = tokenId)
            then mkTokenData to (realOwner (tokens_at s tokenId))
                   (metadataURI (tokens_at s tokenId))
            else tokens_at s j).
  { unfold tokens_at at 1. rewrite Ht. apply default_insert. }
  unfold same_content. rewrite Htok.
  by destruct (decide (j = tokenId)) as [->|Hne].
Qed.

Lemma mint_same_content sender uri ct proof s tokenId s' evs j :
  wf s -> mint sender uri ct proof s = Ok (tokenId, s', evs) ->
  owner (tokens_at s j) <> 0 -> same_content s s' j.
Proof.
  intros Hwf H Hj.
  apply mint_Ok_inv in H as (handle & _ & -> & _ & _ & -> & _).
  unfold same_content. rewrite !tokens_at_mkState_insert.
  destruct (decide (j = _nextTokenId s)) as [->|Hne]; [| done].
  apply (wf_exists s Hwf) in Hj. lia.
Qed.

Lemma same_content_refl s j : owner (tokens_at s j) <> 0 -> same_content s s j.
Proof. by intros H. Qed.

Lemma same_content_trans s1 s2 s3 j :
  same_content s1 s2 j -> same_content s2 s3 j -> same_content s1 s3 j.
Proof.
  intros (_ & Hr1 & Hm1) (Ho & Hr2 & Hm2). repeat split; [done | congruence..].
Qed.

Lemma exec_same_content c : forall s s' evs j,
  valid_call c -> wf s -> exec c s = Ok (s', evs) ->
  owner (tokens_at s j) <> 0 -> same_content s s' j.
Proof.
  assert (Hsafe : forall sender from to tokenId rcv,
    receiver_all (fun c => forall s s' evs j, valid_call c -> wf s ->
                    exec c s = Ok (s', evs) -> owner (tokens_at s j) <> 0 ->
                    same_content s s' j) rcv ->
    forall s s' evs j,
      valid_call (SafeTransferFrom sender from to tokenId rcv) -> wf s ->
      exec (SafeTransferFrom sender from to tokenId rcv) s = Ok (s', evs) ->
      owner (tokens_at s j) <> 0 -> same_content s s' j).
  { intros sender from to tokenId rcv IH s s' evs j [_ Hv] Hwf H Hj.
    apply exec_SafeTransferFrom_Ok_inv in H as (s1 & Htr & ->).
    pose proof (transferFrom_same_content _ _ _ _ _ _ _ j Htr Hj) as Hs1.
    apply transferFrom_wf in Htr; [| done].
    clear Hwf Hj. apply receiver_all_Forall in IH, Hv.
    revert IH Hv s1 Hs1 Htr. generalize (reentered rcv). intros cs IH Hv.
    induction cs as [|c0 cs IHcs]; intros s1 Hs1 Hwf1; [done |].
    rewrite run_cons. apply Forall_cons in IH as [IHc IH], Hv as [Hc Hv].
    pose proof (apply_call_wf c0 s1 Hc Hwf1) as Hwf2.
    apply IHcs; [done | done | | done].
    unfold apply_call in *.
    destruct (exec c0 s1) as [[s2 evs2]|e] eqn:He; [| done].
    apply (same_content_trans s s1 s2); [done |].
    apply (IHc s1 s2 evs2 j); [done | done | done |]. by destruct Hs1. }
  induction c as [sender uri ct proof|sender tokenId account|sender from to tokenId
                 |sender from to tokenId rcv IH|sender from to tokenId data rcv IH]
    using call_nested_ind; intros s s' evs j Hv Hwf H Hj.
  - simpl in H. apply bind_Ok_inv in H as ([[tokenId s1] evs1] & Hm & H).
    injection H as <- <-. by apply (mint_same_content _ _ _ _ _ _ _ _ j Hwf Hm).
  - simpl in H. apply grant_Ok_inv in H as (_ & _ & _ & -> & _). done.
  - simpl in H. by apply (transferFrom_same_content _ _ _ _ _ _ _ j H).
  - by apply (Hsafe sender from to tokenId rcv IH s s' evs j).
  - rewrite exec_SafeTransferFromData in H.
    apply (Hsafe sender from to tokenId rcv IH s s' evs j); [| done..].
    exact Hv.
Qed.

Lemma run_same_content cs : forall s j,
  Forall valid_call cs -> wf s ->
  owner (tokens_at s j) <> 0 -> same_content s (run cs s) j.
Proof.
  induction cs as [|c cs IH]; intros s j Hv Hwf Hj; [done |].
  rewrite run_cons. apply Forall_cons in Hv as [Hc Hv].
  pose proof (apply_call_wf c s Hc Hwf) as Hwf'.
  assert (Hstep : same_content s (apply_call c s) j).
  { unfold apply_call in *. destruct (exec c s) as [[s' evs]|e] eqn:He; [| done].
    by apply (exec_same_content c s s' evs j). }
  apply (same_content_trans s (apply_call c s)); [done |].
  apply IH; [done | done |]. by destruct Hstep.
Qed.

(** ** Reads, in a state that satisfies the invariant *)

Lemma occurrences_NoDup (l : list N) (x : N) :
  NoDup l -> x ∈ l -> occurrences x l = 1%nat.
Proof.
  intros Hnd Hin. unfold occurrences.
  induction Hnd as [|y l Hy Hnd IH]; [by apply not_elem_of_nil in Hin |].
  simpl. destruct (N.eq_dec y x) as [->|Hne].
  - f_equal. apply count_occ_not_In. by rewrite <- list_elem_of_In.
  - apply elem_of_cons in Hin as [->|Hin]; [done | by apply IH].
Qed.

Lemma occurrences_not_elem_of (l : list N) (x : N) :
  x ∉ l <-> occurrences x l = 0%nat.
Proof.
  unfold occurrences. rewrite <- count_occ_not_In. by rewrite list_elem_of_In.
Qed.

Lemma ownerOf_Ok_iff tokenId s a :
  ownerOf tokenId s = Ok a <-> owner (tokens_at s tokenId) = a /\ a <> 0.
Proof.
  unfold ownerOf. destruct (N.eqb_spec (owner (tokens_at s tokenId)) 0) as [Hz|Hnz]; simpl.
  - split; [discriminate | intros [<- ?]; done].
  - split; [by intros [= <-] | by intros [-> _]].
Qed.

Lemma ownerOf_Err tokenId s :
  owner (tokens_at s tokenId) = 0 ->
  ownerOf tokenId s = Err (Revert "Token does not exist").
Proof. intros H. unfold ownerOf. by rewrite H. Qed.

Lemma balanceOf_Ok a s : a <> 0 -> balanceOf a s = Ok (balances_at s a).
Proof. intros H. unfold balanceOf. apply N.eqb_neq in H. by rewrite H. Qed.

Lemma balanceOf_Ok_inv a s n : balanceOf a s = Ok n -> a <> 0 /\ n = balances_at s a.
Proof.
  unfold balanceOf. destruct (N.eqb_spec a 0) as [->|Hne]; simpl; [discriminate |].
  by intros [= <-].
Qed.

Lemma balanceOf_nonzero_dom a s n :
  balanceOf a s = Ok n -> n <> 0 -> a ∈ dom (_balances s).
Proof.
  intros [_ ->]%balanceOf_Ok_inv Hn. apply elem_of_dom.
  unfold balances_at in Hn. by destruct (_balances s !! a).
Qed.

Lemma wf_balance_zero_address s : wf s -> balances_at s 0 = 0.
Proof.
  intros Hwf. rewrite (wf_balance s Hwf).
  destruct (ownedTokens_at s 0) as [|x l] eqn:Hl; [done |].
  assert (Hin : x ∈ ownedTokens_at s 0) by (rewrite Hl; apply list_elem_of_here).
  by apply (wf_owned s Hwf) in Hin as [_ Hin].
Qed.

Lemma wf_balance_le s a : wf s -> balances_at s a <= _nextTokenId s - 1.
Proof.
  intros Hwf. rewrite <- (wf_sum s Hwf), (sum_values_delete _ a).
  fold (balances_at s a). lia.
Qed.

Lemma wf_sum_balanceOf s (A : gset N) :
  wf s ->
  (forall a n, balanceOf a s = Ok n -> n <> 0 -> a ∈ A) ->
  sum_balanceOf A s = _nextTokenId s - 1.
Proof.
  intros Hwf Hcover. rewrite <- (wf_sum s Hwf). unfold sum_balanceOf.
  rewrite <- (sum_over_support A (_balances s)).
  - apply sum_over_ext. intros a _. fold (balances_at s a).
    destruct (decide (a = 0)) as [->|Ha].
    + by rewrite wf_balance_zero_address.
    + by rewrite balanceOf_Ok.
  - intros a Hne. fold (balances_at s a) in Hne.
    apply (Hcover a (balances_at s a)); [| done].
    apply balanceOf_Ok. intros ->. by rewrite wf_balance_zero_address in Hne.
Qed.

Lemma transferFrom_Ok from to tokenId s :
  wf s -> owner (tokens_at s tokenId) = from -> from <> 0 -> to <> 0 ->
  (if decide (to = from) then balances_at s from - 1 else balances_at s to) + 1
    <= max_uint256 ->
  exists s', transferFrom from from to tokenId s =
             Ok (s', [Transfer from to tokenId; DecryptPermissionGranted tokenId to]).
Proof.
  intros Hwf Ho Hfrom Hto Hle.
  destruct (wf_position s from tokenId Hwf Ho Hfrom) as (p & Hp & Hidx).
  assert (Hge : 1 <= balances_at s from).
  { rewrite (wf_balance s Hwf). apply lookup_lt_Some in Hp. lia. }
  unfold transferFrom.
  rewrite getToken_Ok by congruence. rewrite bind_Ok.
  rewrite Ho, N.eqb_refl. simpl.
  apply N.eqb_neq in Hto as Hto'. rewrite Hto'. simpl.
  rewrite checked_sub_Ok by done. rewrite bind_Ok.
  rewrite balances_at_set_balance, checked_add_Ok by done. rewrite bind_Ok.
  match goal with |- context [_removeOwnedToken _ _ ?s2] =>
    destruct (removeOwnedToken_spec s2 from tokenId p Hp Hidx) as (s3 & Hrm & _)
  end.
  rewrite Hrm, bind_Ok. by eexists.
Qed.

(** * The claims *)

(** C1. In every state that a sequence of calls (mints, grants, transfers,
    safe transfers) produces from the deployed state, [totalSupply] returns
    [_nextTokenId - 1], and [balanceOf] summed over the addresses is that
    number: the sum is taken over any finite set of addresses that holds
    every address whose balance is not zero. *)
Theorem C1_balances_sum_to_totalSupply (cs : list call) (A : gset N) :
  Forall valid_call cs ->
  (forall a n, balanceOf a (run cs deployed) = Ok n -> n <> 0 -> a ∈ A) ->
  totalSupply (run cs deployed) = Ok (_nextTokenId (run cs deployed) - 1) /\
  sum_balanceOf A (run cs deployed) = _nextTokenId (run cs deployed) - 1.
Proof.
  intros Hcs Hcover.
  assert (Hwf : wf (run cs deployed)).
  { apply reachable_wf. by exists cs. }
  split.
  - apply checked_sub_Ok. apply (wf_next _ Hwf).
  - by apply wf_sum_balanceOf.
Qed.

(** C2, as amended. In every state of the contract in which token [tokenId]
    exists and is owned by [A], after a successful [transferFrom A B tokenId]
    called by [A], with [B] another address than [A]: [B] owns the token, the
    balance of [A] is one less and that of [B] one more, the token is no
    longer in [A]'s list and is once in [B]'s, [B] may decrypt the token's
    ciphertext handle, and every grant there was is still there. *)
Theorem C2_transferFrom_moves_token (s s' : state) (A B tokenId : N) evs :
  reachable s -> A <> B ->
  ownerOf tokenId s = Ok A ->
  transferFrom A A B tokenId s = Ok (s', evs) ->
  exists a b handle,
    balanceOf A s = Ok a /\ balanceOf B s = Ok b /\
    getEncryptedRealOwner tokenId s = Ok handle /\
    ownerOf tokenId s' = Ok B /\
    1 <= a /\ balanceOf A s' = Ok (a - 1) /\
    balanceOf B s' = Ok (b + 1) /\
    (tokenId ∉ tokensOfOwner A s') /\
    occurrences tokenId (tokensOfOwner B s') = 1%nat /\
    isAllowed handle B s' /\
    (forall h account, isAllowed h account s -> isAllowed h account s').
Proof.
  intros Hr HAB Hown H.
  pose proof (reachable_wf s Hr) as Hwf.
  apply ownerOf_Ok_iff in Hown as [Ho HA].
  destruct (transferFrom_checks _ _ _ _ _ _ _ H) as (_ & _ & _ & HB).
  pose proof (transferFrom_wf _ _ _ _ _ _ _ Hwf H) as Hwf'.
  destruct (transferFrom_Ok_inv _ _ _ _ _ _ _ Hwf H) as (p & Hp & Hidx & Hge & Hle & Htp & _).
  pose proof (wf_nodup s Hwf A) as Hnd.
  destruct (swap_remove_spec _ p tokenId Hnd Hp) as (_ & _ & Hmem & _).
  assert (Htok : tokens_at s' tokenId =
            mkTokenData B (realOwner (tokens_at s tokenId))
              (metadataURI (tokens_at s tokenId))).
  { unfold tokens_at at 1. rewrite (tp_tokens _ _ _ _ _ _ Htp).
    by rewrite lookup_insert_eq. }
  exists (balances_at s A), (balances_at s B), (realOwner (tokens_at s tokenId)).
  split; [by apply balanceOf_Ok |]. split; [by apply balanceOf_Ok |].
  split. { unfold getEncryptedRealOwner. rewrite getToken_Ok by congruence. done. }
  split. { apply ownerOf_Ok_iff. by rewrite Htok. }
  split; [done |].
  split.
  { rewrite balanceOf_Ok by done. f_equal.
    unfold balances_at at 1. rewrite (tp_balances _ _ _ _ _ _ Htp).
    rewrite !default_insert. rewrite decide_False by done. by rewrite decide_True. }
  split.
  { rewrite balanceOf_Ok by done. f_equal.
    unfold balances_at at 1. rewrite (tp_balances _ _ _ _ _ _ Htp).
    rewrite default_insert, decide_True by done. by rewrite decide_False. }
  split.
  { unfold tokensOfOwner. rewrite (tp_owned _ _ _ _ _ _ Htp).
    rewrite decide_False, decide_True by done. intros Hin.
    by apply Hmem in Hin as [_ Hin]. }
  split.
  { apply occurrences_NoDup; [apply (wf_nodup s' Hwf') |].
    unfold tokensOfOwner. apply (wf_owned s' Hwf'). by rewrite Htok. }
  split.
  { unfold isAllowed. rewrite (tp_acl _ _ _ _ _ _ Htp).
    apply elem_of_union_l. by apply elem_of_singleton. }
  intros h account Hin. unfold isAllowed. rewrite (tp_acl _ _ _ _ _ _ Htp).
  by apply elem_of_union_r.
Qed.

(** C3. Whatever calls follow (mints, grants, transfers, safe transfers and
    the calls their callbacks re-enter with), succeeding or not, a pair
    (ciphertext handle, address) that is in the decrypt-permission relation
    stays in it: from any state, so in every state of the contract. *)
Theorem C3_grants_are_never_revoked (cs : list call) (s : state)
    (handle : eaddress) (account : address) :
  isAllowed handle account s -> isAllowed handle account (run cs s).
Proof.
  unfold isAllowed. intros Hin. by apply (run_acl_mono cs s).
Qed.

(** C4. After a successful [mint uri ct proof] by a caller [A], in every
    state of the contract: the id returned is the value the counter had, it
    is at least 1 and was the id of no token, the counter is one more
    afterwards; [A] owns the new token, has one more in its balance and the
    new id exactly once in its list; the token carries [uri]; and the
    contract and [A] may both decrypt the handle stored for it. *)
Theorem C4_mint_effects (s s' : state) (A : address) (uri : string)
    (ct : externalEaddress) (proof : bytes) (newId : uint256) evs :
  reachable s -> A <> 0 ->
  mint A uri ct proof s = Ok (newId, s', evs) ->
  newId = _nextTokenId s /\ 1 <= newId /\ _nextTokenId s' = newId + 1 /\
  ownerOf newId s = Err (Revert "Token does not exist") /\
  ownerOf newId s' = Ok A /\
  (exists b, balanceOf A s = Ok b /\ balanceOf A s' = Ok (b + 1)) /\
  occurrences newId (tokensOfOwner A s') = 1%nat /\
  tokenURI newId s' = Ok uri /\
  exists handle,
    getEncryptedRealOwner newId s' = Ok handle /\
    isAllowed handle this s' /\ isAllowed handle A s'.
Proof.
  intros Hr HA H.
  pose proof (reachable_wf s Hr) as Hwf.
  pose proof (mint_wf _ _ _ _ _ _ _ _ Hwf HA H) as Hwf'.
  apply mint_Ok_inv in H as (handle & _ & -> & Hle & Hble & Hs' & _).
  pose proof (wf_next s Hwf) as [Hn1 _].
  assert (Htok : tokens_at s' (_nextTokenId s) = mkTokenData A handle uri).
  { rewrite Hs', tokens_at_mkState_insert. by rewrite decide_True. }
  split; [done |]. split; [done |]. split; [by rewrite Hs' |].
  split.
  { apply ownerOf_Err.
    destruct (decide (owner (tokens_at s (_nextTokenId s)) = 0)) as [|Hne]; [done |].
    apply (wf_exists s Hwf) in Hne. lia. }
  split. { apply ownerOf_Ok_iff. by rewrite Htok. }
  split.
  { exists (balances_at s A). split; [by apply balanceOf_Ok |].
    rewrite balanceOf_Ok by done. f_equal. rewrite Hs'.
    unfold balances_at at 1. simpl. by rewrite lookup_insert_eq. }
  split.
  { apply occurrences_NoDup; [apply (wf_nodup s' Hwf') |].
    unfold tokensOfOwner. apply (wf_owned s' Hwf'). by rewrite Htok. }
  split.
  { unfold tokenURI. rewrite getToken_Ok by (by rewrite Htok). by rewrite Htok. }
  exists handle. split.
  { unfold getEncryptedRealOwner. rewrite getToken_Ok by (by rewrite Htok).
    by rewrite Htok. }
  rewrite Hs'. unfold isAllowed. simpl. split.
  - apply elem_of_union_r, elem_of_union_l. by apply elem_of_singleton.
  - apply elem_of_union_l. by apply elem_of_singleton.
Qed.

(** C5. [transferFrom from to tokenId] checks its preconditions in this
    order and fails with the first one violated: the token exists (else
    "Token does not exist"), its stored owner is [from] (else "Transfer
    from incorrect owner"), the caller is [from] (else "Caller is not
    owner"), [to] is not the zero address (else "Invalid receiver"); and a
    transfer that fails leaves the state as it was. *)
Theorem C5_transferFrom_checks_in_order (s : state) (sender from to tokenId : N) :
  (ownerOf tokenId s = Err (Revert "Token does not exist") ->
   transferFrom sender from to tokenId s = Err (Revert "Token does not exist")) /\
  (forall a, ownerOf tokenId s = Ok a -> a <> from ->
   transferFrom sender from to tokenId s =
     Err (Revert "Transfer from incorrect owner")) /\
  (ownerOf tokenId s = Ok from -> sender <> from ->
   transferFrom sender from to tokenId s = Err (Revert "Caller is not owner")) /\
  (ownerOf tokenId s = Ok from -> sender = from -> to = 0 ->
   transferFrom sender from to tokenId s = Err (Revert "Invalid receiver")) /\
  (forall e, transferFrom sender from to tokenId s = Err e ->
   apply_call (TransferFrom sender from to tokenId) s = s).
Proof.
  unfold ownerOf, transferFrom, _getToken.
  destruct (N.eqb_spec (owner (tokens_at s tokenId)) 0) as [Hz|Hnz]; simpl.
  - split; [done |]. split; [discriminate |]. split; [discriminate |].
    split; [discriminate |]. intros e He. unfold apply_call. simpl.
    unfold transferFrom, _getToken. apply N.eqb_eq in Hz. by rewrite Hz.
  - split; [discriminate |]. split; [| split; [| split]].
    + intros a [= <-] Hne. apply N.eqb_neq in Hne. by rewrite Hne.
    + intros [= Ho] Hne. rewrite Ho, N.eqb_refl. simpl.
      apply N.eqb_neq in Hne. by rewrite Hne.
    + intros [= Ho] -> ->. by rewrite Ho, !N.eqb_refl.
    + intros e He. unfold apply_call. simpl.
      unfold transferFrom, _getToken. apply N.eqb_neq in Hnz. rewrite Hnz. simpl.
      by rewrite He.
Qed.

(** C6. When the validation of the ciphertext and its proof fails, [mint]
    fails with [InvalidCiphertext] and the state is as it was; no token id
    is used up: the mint that succeeds next returns the id the failed one
    would have returned, the value of the counter. *)
Theorem C6_mint_invalid_ciphertext (s : state) (sender : address) (uri : string)
    (ct : externalEaddress) (proof : bytes) :
  verifyInput this sender ct proof = None ->
  mint sender uri ct proof s = Err InvalidCiphertext /\
  apply_call (Mint sender uri ct proof) s = s /\
  forall sender' uri' ct' proof' tokenId s' evs,
    mint sender' uri' ct' proof' (apply_call (Mint sender uri ct proof) s)
      = Ok (tokenId, s', evs) ->
    tokenId = _nextTokenId s.
Proof.
  intros Hv.
  assert (Hm : mint sender uri ct proof s = Err InvalidCiphertext).
  { unfold mint, FHE_fromExternal. by rewrite Hv. }
  assert (Ha : apply_call (Mint sender uri ct proof) s = s).
  { unfold apply_call. simpl. by rewrite Hm. }
  split; [done |]. split; [done |].
  intros sender' uri' ct' proof' tokenId s' evs H. rewrite Ha in H.
  by apply mint_Ok_inv in H as (_ & _ & -> & _).
Qed.

Lemma FHE_allow_idemp handle account s :
  FHE_allow handle account (FHE_allow handle account s) = FHE_allow handle account s.
Proof.
  unfold FHE_allow. simpl. f_equal.
  rewrite (assoc_L (∪)). by rewrite union_idemp_L.
Qed.

(** C7. In every state in which the caller [A] owns the existing token
    [tokenId], and for every [B] other than the zero address,
    [grantDecryptPermission tokenId B] succeeds and puts the pair (the
    token's ciphertext handle, [B]) in the decrypt-permission relation; run
    a second time it succeeds again and the state is the one the first run
    left. *)
Theorem C7_grant_is_idempotent (s : state) (A B tokenId : N) :
  ownerOf tokenId s = Ok A -> B <> 0 ->
  exists handle s1,
    getEncryptedRealOwner tokenId s = Ok handle /\
    grantDecryptPermission A tokenId B s =
      Ok (s1, [DecryptPermissionGranted tokenId B]) /\
    acl s1 = {[ (handle, B) ]} ∪ acl s /\
    isAllowed handle B s1 /\
    grantDecryptPermission A tokenId B s1 =
      Ok (s1, [DecryptPermissionGranted tokenId B]) /\
    apply_call (GrantDecryptPermission A tokenId B)
      (apply_call (GrantDecryptPermission A tokenId B) s)
    = apply_call (GrantDecryptPermission A tokenId B) s.
Proof.
  intros Hown HB. apply ownerOf_Ok_iff in Hown as [Ho HA].
  assert (Hex : owner (tokens_at s tokenId) <> 0) by congruence.
  set (handle := realOwner (tokens_at s tokenId)).
  assert (H1 : grantDecryptPermission A tokenId B s =
               Ok (FHE_allow handle B s, [DecryptPermissionGranted tokenId B])).
  { by apply grant_Ok. }
  assert (H2 : grantDecryptPermission A tokenId B (FHE_allow handle B s) =
               Ok (FHE_allow handle B s, [DecryptPermissionGranted tokenId B])).
  { rewrite grant_Ok by done. rewrite tokens_at_FHE_allow. fold handle.
    by rewrite FHE_allow_idemp. }
  exists handle, (FHE_allow handle B s).
  split. { unfold getEncryptedRealOwner. by rewrite getToken_Ok. }
  split; [done |]. split; [done |].
  split. { unfold isAllowed. simpl. apply elem_of_union_l. by apply elem_of_singleton. }
  split; [done |].
  unfold apply_call. simpl. rewrite H1. by rewrite H2.
Qed.

(** C8. In every state of the contract, [ownerOf], [tokenURI] and
    [getEncryptedRealOwner] answer for the ids from 1 up to, and not
    including, [_nextTokenId], and fail with "Token does not exist" for
    every other id; [balanceOf] answers for every address but the zero
    address, for which it fails with "Invalid owner"; [totalSupply] never
    fails. *)
Theorem C8_reads_fail_exactly_when (s : state) :
  reachable s ->
  (forall tokenId, 1 <= tokenId < _nextTokenId s ->
     (exists a, ownerOf tokenId s = Ok a) /\
     (exists uri, tokenURI tokenId s = Ok uri) /\
     (exists handle, getEncryptedRealOwner tokenId s = Ok handle)) /\
  (forall tokenId, ~ (1 <= tokenId < _nextTokenId s) ->
     ownerOf tokenId s = Err (Revert "Token does not exist") /\
     tokenURI tokenId s = Err (Revert "Token does not exist") /\
     getEncryptedRealOwner tokenId s = Err (Revert "Token does not exist")) /\
  (forall a, a <> 0 -> exists n, balanceOf a s = Ok n) /\
  balanceOf 0 s = Err (Revert "Invalid owner") /\
  totalSupply s = Ok (_nextTokenId s - 1).
Proof.
  intros Hr. pose proof (reachable_wf s Hr) as Hwf.
  split; [| split; [| split; [| split]]].
  - intros tokenId Hrange. apply (wf_exists s Hwf) in Hrange.
    unfold tokenURI, getEncryptedRealOwner. rewrite getToken_Ok by done.
    split; [| split; by eexists].
    exists (owner (tokens_at s tokenId)). by apply ownerOf_Ok_iff.
  - intros tokenId Hrange.
    assert (Hz : owner (tokens_at s tokenId) = 0).
    { destruct (decide (owner (tokens_at s tokenId) = 0)) as [|Hne]; [done |].
      by apply (wf_exists s Hwf) in Hne. }
    unfold tokenURI, getEncryptedRealOwner. rewrite getToken_Err by done.
    split; [by apply ownerOf_Err | done].
  - intros a Ha. exists (balances_at s a). by apply balanceOf_Ok.
  - reflexivity.
  - apply checked_sub_Ok. apply (wf_next s Hwf).
Qed.

(** C9. In every state of the contract, and for every token that exists in
    it, the ciphertext handle and the metadata URI that the reads return are
    the same after any sequence of calls: grants, transfers and safe
    transfers of any token, and mints of other tokens. *)
Theorem C9_content_is_immutable (s : state) (cs : list call) (tokenId : uint256)
    (handle : eaddress) (uri : string) :
  reachable s -> Forall valid_call cs ->
  getEncryptedRealOwner tokenId s = Ok handle ->
  tokenURI tokenId s = Ok uri ->
  getEncryptedRealOwner tokenId (run cs s) = Ok handle /\
  tokenURI tokenId (run cs s) = Ok uri.
Proof.
  intros Hr Hcs Hh Hu. pose proof (reachable_wf s Hr) as Hwf.
  unfold getEncryptedRealOwner, tokenURI in *.
  apply bind_Ok_inv in Hh as (t1 & Ht1 & Hh).
  apply bind_Ok_inv in Hu as (t2 & Ht2 & Hu).
  apply getToken_Ok_inv in Ht1 as [-> Hex]. apply getToken_Ok_inv in Ht2 as [-> _].
  injection Hh as <-. injection Hu as <-.
  destruct (run_same_content cs s tokenId Hcs Hwf Hex) as (Hex' & Hr' & Hm').
  rewrite getToken_Ok by done. rewrite !bind_Ok. by rewrite Hr', Hm'.
Qed.

(** C10. In every state of the contract in which [A] owns token [tokenId],
    [transferFrom A A tokenId] called by [A] succeeds; afterwards [A] still
    owns the token, its balance is what it was, the token is exactly once in
    its list, at the position the reverse index records, and the ledger
    invariant holds. *)
Theorem C10_self_transfer (s : state) (A tokenId : N) :
  reachable s -> ownerOf tokenId s = Ok A ->
  exists s',
    transferFrom A A A tokenId s =
      Ok (s', [Transfer A A tokenId; DecryptPermissionGranted tokenId A]) /\
    ownerOf tokenId s' = Ok A /\
    balanceOf A s' = balanceOf A s /\
    occurrences tokenId (tokensOfOwner A s') = 1%nat /\
    (exists p, tokensOfOwner A s' !! p = Some tokenId /\
               ownedTokenIndex_at s' tokenId = N.of_nat p) /\
    wf s'.
Proof.
  intros Hr Hown. pose proof (reachable_wf s Hr) as Hwf.
  apply ownerOf_Ok_iff in Hown as [Ho HA].
  assert (Hle : (if decide (A = A) then balances_at s A - 1 else balances_at s A) + 1
                <= max_uint256).
  { rewrite decide_True by done.
    pose proof (wf_balance_le s A Hwf). pose proof (wf_next s Hwf). lia. }
  destruct (transferFrom_Ok A A tokenId s Hwf Ho HA HA Hle) as (s' & H).
  exists s'. split; [done |].
  pose proof (transferFrom_wf _ _ _ _ _ _ _ Hwf H) as Hwf'.
  destruct (transferFrom_Ok_inv _ _ _ _ _ _ _ Hwf H) as (p & Hp & Hidx & Hge & _ & Htp & _).
  assert (Htok : tokens_at s' tokenId =
            mkTokenData A (realOwner (tokens_at s tokenId))
              (metadataURI (tokens_at s tokenId))).
  { unfold tokens_at at 1. rewrite (tp_tokens _ _ _ _ _ _ Htp).
    by rewrite lookup_insert_eq. }
  assert (Hin : tokenId ∈ tokensOfOwner A s').
  { unfold tokensOfOwner. apply (wf_owned s' Hwf'). by rewrite Htok. }
  split. { apply ownerOf_Ok_iff. by rewrite Htok. }
  split.
  { rewrite !balanceOf_Ok by done. f_equal.
    unfold balances_at at 1. rewrite (tp_balances _ _ _ _ _ _ Htp).
    rewrite default_insert, !decide_True by done. lia. }
  split. { apply occurrences_NoDup; [apply (wf_nodup s' Hwf') | done]. }
  split; [| done].
  apply list_elem_of_lookup in Hin as [q Hq]. exists q. split; [done |].
  by apply (wf_index s' Hwf' A).
Qed.

(** * Further properties of the contract *)

(** ** Invariants, by induction on calls *)

Lemma valid_call_senders_all c : valid_call c <-> senders_all (fun a => a <> 0) c.
Proof.
  induction c as [sender uri ct proof|sender tokenId account|sender from to tokenId
                 |sender from to tokenId rcv IH|sender from to tokenId data rcv IH]
    using call_nested_ind; simpl; try tauto.
  - rewrite !receiver_all_Forall. apply receiver_all_Forall in IH.
    split; intros [Hs H]; (split; [done |]);
      induction IH as [|c0 cs Hc _ IHcs]; [done | | done |];
      apply Forall_cons in H as [H0 H]; apply Forall_cons; split;
      try (by apply Hc); by apply IHcs.
  - rewrite !receiver_all_Forall. apply receiver_all_Forall in IH.
    split; intros [Hs H]; (split; [done |]);
      induction IH as [|c0 cs Hc _ IHcs]; [done | | done |];
      apply Forall_cons in H as [H0 H]; apply Forall_cons; split;
      try (by apply Hc); by apply IHcs.
Qed.

Lemma senders_all_impl (V W : address -> Prop) c :
  (forall a, V a -> W a) -> senders_all V c -> senders_all W c.
Proof.
  intros HVW.
  induction c as [sender uri ct proof|sender tokenId account|sender from to tokenId
                 |sender from to tokenId rcv IH|sender from to tokenId data rcv IH]
    using call_nested_ind; simpl; intros [Hs H]; (split; [by apply HVW |]); try done.
  - apply receiver_all_Forall in IH, H. apply receiver_all_Forall.
    induction IH as [|c0 cs Hc _ IHcs]; [done |].
    apply Forall_cons in H as [H0 H]. apply Forall_cons. split; [by apply Hc | by apply IHcs].
  - apply receiver_all_Forall in IH, H. apply receiver_all_Forall.
    induction IH as [|c0 cs Hc _ IHcs]; [done |].
    apply Forall_cons in H as [H0 H]. apply Forall_cons. split; [by apply Hc | by apply IHcs].
Qed.

(** A property of states that successful mints, grants and transfers by
    senders satisfying [V] carry over is carried over by every call whose
    senders satisfy [V], and by every sequence of such calls. *)
Section exec_invariant.
Variable Q : state -> Prop.
Variable V : address -> Prop.
Hypothesis Hmint : forall sender uri ct proof s tokenId s' evs,
  V sender -> Q s -> mint sender uri ct proof s = Ok (tokenId, s', evs) -> Q s'.
Hypothesis Hgrant : forall sender tokenId account s s' evs,
  V sender -> Q s ->
  grantDecryptPermission sender tokenId account s = Ok (s', evs) -> Q s'.
Hypothesis Htransfer : forall sender from to tokenId s s' evs,
  V sender -> Q s -> transferFrom sender from to tokenId s = Ok (s', evs) -> Q s'.

Lemma exec_invariant c : forall s s' evs,
  senders_all V c -> Q s -> exec c s = Ok (s', evs) -> Q s'.
Proof.
  assert (Hsafe : forall sender from to tokenId rcv,
    receiver_all (fun c => forall s s' evs,
                    senders_all V c -> Q s -> exec c s = Ok (s', evs) -> Q s') rcv ->
    forall s s' evs,
      V sender -> receiver_all (senders_all V) rcv -> Q s ->
      exec (SafeTransferFrom sender from to tokenId rcv) s = Ok (s', evs) -> Q s').
  { intros sender from to tokenId rcv IH s s' evs Hs Hv HQ H.
    apply exec_SafeTransferFrom_Ok_inv in H as (s1 & Htr & ->).
    apply (Htransfer _ _ _ _ _ _ _ Hs HQ) in Htr.
    apply receiver_all_Forall in IH, Hv.
    revert IH Hv s1 Htr. generalize (reentered rcv). intros cs IH Hv.
    induction cs as [|c0 cs IHcs]; intros s1 Hs1; [done |].
    rewrite run_cons. apply Forall_cons in IH as [IHc IH], Hv as [Hc Hv].
    apply IHcs; [done | done |]. unfold apply_call.
    destruct (exec c0 s1) as [[s2 evs2]|e] eqn:He; [| done].
    by apply (IHc s1 s2 evs2). }
  induction c as [sender uri ct proof|sender tokenId account|sender from to tokenId
                 |sender from to tokenId rcv IH|sender from to tokenId data rcv IH]
    using call_nested_ind; intros s s' evs Hv HQ H.
  - simpl in H. apply bind_Ok_inv in H as ([[tokenId s1] evs1] & Hm & H).
    injection H as <- <-. destruct Hv as [Hs _].
    by apply (Hmint _ _ _ _ _ _ _ _ Hs HQ Hm).
  - simpl in H. destruct Hv as [Hs _]. by apply (Hgrant _ _ _ _ _ _ Hs HQ H).
  - simpl in H. destruct Hv as [Hs _]. by apply (Htransfer _ _ _ _ _ _ _ Hs HQ H).
  - destruct Hv as [Hs Hv]. by apply (Hsafe sender from to tokenId rcv IH s s' evs).
  - destruct Hv as [Hs Hv]. rewrite exec_SafeTransferFromData in H.
    by apply (Hsafe sender from to tokenId rcv IH s s' evs).
Qed.

Lemma run_invariant cs : forall s,
  Forall (senders_all V) cs -> Q s -> Q (run cs s).
Proof.
  induction cs as [|c cs IH]; intros s Hv HQ; [done |].
  rewrite run_cons. apply Forall_cons in Hv as [Hc Hv]. apply IH; [done |].
  unfold apply_call. destruct (exec c s) as [[s' evs]|e] eqn:He; [| done].
  by apply (exec_invariant c s s' evs).
Qed.
End exec_invariant.

(** ** [grantDecryptPermission] *)

(** X1. [grantDecryptPermission tokenId account] checks in this order and
    fails with the first check violated: the token exists (else "Token does
    not exist"), the caller is its owner (else "Caller is not token owner"),
    [account] is not the zero address (else "Invalid account"); a grant that
    fails leaves the state, the ACL included, as it was. *)
Theorem X1_grant_checks_in_order (s : state) (sender tokenId account : N) :
  (ownerOf tokenId s = Err (Revert "Token does not exist") ->
   grantDecryptPermission sender tokenId account s
     = Err (Revert "Token does not exist")) /\
  (forall a, ownerOf tokenId s = Ok a -> sender <> a ->
   grantDecryptPermission sender tokenId account s
     = Err (Revert "Caller is not token owner")) /\
  (ownerOf tokenId s = Ok sender -> account = 0 ->
   grantDecryptPermission sender tokenId account s
     = Err (Revert "Invalid account")) /\
  (forall e, grantDecryptPermission sender tokenId account s = Err e ->
   apply_call (GrantDecryptPermission sender tokenId account) s = s).
Proof.
  unfold ownerOf, grantDecryptPermission, _getToken.
  destruct (N.eqb_spec (owner (tokens_at s tokenId)) 0) as [Hz|Hnz]; simpl.
  - split; [done |]. split; [discriminate |]. split; [discriminate |].
    intros e He. unfold apply_call. simpl.
    unfold grantDecryptPermission, _getToken. apply N.eqb_eq in Hz. by rewrite Hz.
  - split; [discriminate |]. split; [| split].
    + intros a [= <-] Hne. apply N.eqb_neq in Hne. rewrite Hne. reflexivity.
    + intros [= Ho] ->. rewrite Ho, !N.eqb_refl. reflexivity.
    + intros e He. unfold apply_call. simpl.
      unfold grantDecryptPermission, _getToken. apply N.eqb_neq in Hnz. rewrite Hnz.
      simpl. by rewrite He.
Qed.

(** X2. A successful grant writes to the ACL only: the id counter, the
    tokens, the balances and the owner index are what they were, so every
    read of the ledger returns what it returned before. *)
Theorem X2_grant_changes_only_the_acl (s s' : state) (sender tokenId account : N) evs :
  grantDecryptPermission sender tokenId account s = Ok (s', evs) ->
  totalSupply s' = totalSupply s /\
  (forall j, ownerOf j s' = ownerOf j s /\ tokenURI j s' = tokenURI j s /\
             getEncryptedRealOwner j s' = getEncryptedRealOwner j s) /\
  (forall a, balanceOf a s' = balanceOf a s /\
             tokensOfOwner a s' = tokensOfOwner a s) /\
  (forall j, ownedTokenIndex_at s' j = ownedTokenIndex_at s j).
Proof.
  intros H. apply grant_Ok_inv in H as (_ & _ & _ & -> & _). done.
Qed.


(** ** [mint] *)

(** X4. After a successful mint, [totalSupply] returns the id of the token
    just minted; the tasks and the tests read the new id this way. *)
Theorem X4_totalSupply_is_the_last_minted_id (s s' : state) (sender : address)
    (uri : string) (ct : externalEaddress) (proof : bytes) (tokenId : uint256) evs :
  mint sender uri ct proof s = Ok (tokenId, s', evs) ->
  totalSupply s' = Ok tokenId.
Proof.
  intros H. apply mint_Ok_inv in H as (handle & _ & -> & _ & _ & -> & _).
  unfold totalSupply. simpl. rewrite checked_sub_Ok by lia. f_equal. lia.
Qed.

(** X5. In every state of the contract, a mint whose ciphertext the
    validation service accepts succeeds and returns the value of the
    counter, as long as the counter is below the largest [uint256]: the
    balance of the caller cannot overflow. *)
Theorem X5_mint_succeeds (s : state) (sender : address) (uri : string)
    (ct : externalEaddress) (proof : bytes) (handle : eaddress) :
  reachable s ->
  verifyInput this sender ct proof = Some handle ->
  _nextTokenId s < max_uint256 ->
  exists s',
    mint sender uri ct proof s
    = Ok (_nextTokenId s, s',
          [Transfer 0 sender (_nextTokenId s); Minted sender (_nextTokenId s) uri;
           DecryptPermissionGranted (_nextTokenId s) sender]).
Proof.
  intros Hr Hv Hlt. pose proof (reachable_wf s Hr) as Hwf.
  unfold mint, FHE_fromExternal. rewrite Hv, bind_Ok.
  rewrite checked_add_Ok by lia. rewrite bind_Ok.
  assert (Hb : balances_at
                 (set_token (_nextTokenId s) (mkTokenData sender handle uri)
                    (set_nextTokenId (_nextTokenId s + 1) s)) sender
               = balances_at s sender) by reflexivity.
  rewrite Hb. pose proof (wf_balance_le s sender Hwf) as Hle.
  rewrite checked_add_Ok by lia. rewrite bind_Ok. by eexists.
Qed.

(** X6. When the id counter has reached the largest [uint256], a mint with
    an accepted ciphertext fails with the arithmetic panic 0x11, and the
    state is as it was. *)
Theorem X6_mint_counter_overflow (s : state) (sender : address) (uri : string)
    (ct : externalEaddress) (proof : bytes) (handle : eaddress) :
  verifyInput this sender ct proof = Some handle ->
  _nextTokenId s = max_uint256 ->
  mint sender uri ct proof s = Err (Panic 17) /\
  apply_call (Mint sender uri ct proof) s = s.
Proof.
  intros Hv Hmax.
  assert (H : mint sender uri ct proof s = Err (Panic 17)).
  { unfold mint, FHE_fromExternal. rewrite Hv, bind_Ok.
    unfold checked_add. rewrite Hmax.
    destruct (N.leb_spec (max_uint256 + 1) max_uint256) as [Hle|_]; [lia | done]. }
  split; [done |]. unfold apply_call. simpl. by rewrite H.
Qed.

(** ** [transferFrom] *)

(** X7. In every state of the contract, [transferFrom] succeeds exactly
    when its four checks pass: the arithmetic and the array accesses of the
    balance update and of the owner index never fail. *)
Theorem X7_transferFrom_succeeds_iff (s : state) (sender from to tokenId : N) :
  reachable s ->
  (exists s' evs, transferFrom sender from to tokenId s = Ok (s', evs)) <->
  ownerOf tokenId s = Ok from /\ sender = from /\ to <> 0.
Proof.
  intros Hr. pose proof (reachable_wf s Hr) as Hwf. split.
  - intros (s' & evs & H).
    destruct (transferFrom_checks _ _ _ _ _ _ _ H) as (Ho & Hfrom & -> & Hto).
    split; [| done]. by apply ownerOf_Ok_iff.
  - intros (Hown & -> & Hto). apply ownerOf_Ok_iff in Hown as [Ho Hfrom].
    assert (Hle : (if decide (to = from) then balances_at s from - 1
                   else balances_at s to) + 1 <= max_uint256).
    { pose proof (wf_balance_le s from Hwf). pose proof (wf_balance_le s to Hwf).
      pose proof (wf_next s Hwf). destruct (decide (to = from)); lia. }
    destruct (transferFrom_Ok from to tokenId s Hwf Ho Hfrom Hto Hle) as (s' & H).
    by exists s', [Transfer from to tokenId; DecryptPermissionGranted tokenId to].
Qed.

(** ** The owner index *)

Lemma swap_remove_Permutation (arr : list N) (p : nat) (x : N) :
  arr !! p = Some x -> x :: swap_remove arr p ≡ₚ arr.
Proof.
  intros Hp.
  destruct (lookup_split_last arr p x Hp) as [(l1 & -> & <-)|(l1 & l2 & z & -> & <-)].
  - rewrite swap_remove_last. change (x :: l1) with ([x] ++ l1).
    apply Permutation_app_comm.
  - rewrite swap_remove_mid. etrans; [| apply Permutation_middle].
    constructor. apply Permutation_app_head.
    change (z :: l2) with ([z] ++ l2). apply Permutation_app_comm.
Qed.

(** X8. [_removeOwnedToken owner tokenId], when the token is in the owner's
    array at the position the reverse index records, succeeds and removes
    that one entry: the array is a rearrangement of what it was without the
    token, the arrays of the other owners, the counter, the tokens, the
    balances and the ACL are untouched, the reverse index of the token is
    cleared, and if the array had no duplicates and the reverse index gave
    the position of each of its entries, it still does. *)
Theorem X8_removeOwnedToken_removes_one (s : state) (a tokenId : N) (p : nat) :
  ownedTokens_at s a !! p = Some tokenId ->
  ownedTokenIndex_at s tokenId = N.of_nat p ->
  exists s',
    _removeOwnedToken a tokenId s = Ok s' /\
    tokenId :: ownedTokens_at s' a ≡ₚ ownedTokens_at s a /\
    (forall b, b <> a -> ownedTokens_at s' b = ownedTokens_at s b) /\
    ownedTokenIndex_at s' tokenId = 0 /\
    _nextTokenId s' = _nextTokenId s /\ _tokens s' = _tokens s /\
    _balances s' = _balances s /\ acl s' = acl s /\
    (NoDup (ownedTokens_at s a) ->
     (forall i j, ownedTokens_at s a !! i = Some j ->
                  ownedTokenIndex_at s j = N.of_nat i) ->
     forall i j, ownedTokens_at s' a !! i = Some j ->
                 ownedTokenIndex_at s' j = N.of_nat i).
Proof.
  intros Hp Hidx.
  destruct (removeOwnedToken_spec s a tokenId p Hp Hidx)
    as (s' & Hrm & Hn & Ht & Hb & Ha & Hown & Hind).
  exists s'. split; [done |]. split.
  { rewrite Hown, decide_True by done. by apply swap_remove_Permutation. }
  split. { intros b Hb'. by rewrite Hown, decide_False. }
  split. { by rewrite Hind, decide_True. }
  repeat (split; [done |]).
  intros Hnd Hpos i j Hi. rewrite Hown, decide_True in Hi by done.
  destruct (swap_remove_spec _ p tokenId Hnd Hp) as (_ & _ & Hmem & Hsr).
  rewrite Hind. rewrite decide_False.
  2: { intros ->. apply list_elem_of_lookup_2, Hmem in Hi as [_ Hi]. done. }
  destruct (Hsr i j Hi) as [(Hne & -> & Hz)|[Hi' Hnz]].
  - by rewrite decide_True.
  - rewrite decide_False; [by apply Hpos |]. intros [Hne Hz]. by apply Hnz.
Qed.

(** X9. [_removeOwnedToken] on an owner whose array is empty fails with the
    arithmetic panic 0x11 (the last index underflows); on an array that is
    not empty, with a reverse index that points beyond it, it fails with the
    index panic 0x32. *)
Theorem X9_removeOwnedToken_panics (s : state) (a tokenId : N) :
  (ownedTokens_at s a = [] -> _removeOwnedToken a tokenId s = Err (Panic 17)) /\
  (ownedTokens_at s a <> [] ->
   N.of_nat (length (ownedTokens_at s a)) <= ownedTokenIndex_at s tokenId ->
   _removeOwnedToken a tokenId s = Err (Panic 50)).
Proof.
  unfold _removeOwnedToken. split.
  - intros ->. reflexivity.
  - intros Hne Hge.
    destruct (ownedTokens_at s a) as [|x l] eqn:Harr; [done |].
    assert (Hlen : N.of_nat (length (x :: l)) = N.of_nat (length l) + 1)
      by (simpl; lia).
    rewrite checked_sub_Ok by (simpl; lia). rewrite bind_Ok.
    destruct (N.eqb_spec (ownedTokenIndex_at s tokenId)
                (N.of_nat (length (x :: l)) - 1)) as [Heq|_]; [lia |].
    simpl negb. cbv iota.
    replace (N.of_nat (length (x :: l)) - 1) with (N.of_nat (length l))
      by (simpl; lia).
    destruct ((x :: l) !! length l) as [z|] eqn:Hz.
    2: { apply lookup_ge_None in Hz. simpl in Hz. lia. }
    rewrite (array_get_Ok _ _ z Hz), bind_Ok.
    unfold array_set.
    destruct (N.ltb_spec (ownedTokenIndex_at s tokenId) (N.of_nat (length (x :: l))))
      as [Hlt|_]; [lia | done].
Qed.

(** X10. Appending a token to an owner's array and removing it again gives
    back the array, and those of the other owners, as they were; the reverse
    index of the token is cleared and that of every other token is what it
    was. *)
Theorem X10_add_then_remove (s : state) (a tokenId : N) :
  exists s',
    _removeOwnedToken a tokenId (_addOwnedToken a tokenId s) = Ok s' /\
    (forall b, ownedTokens_at s' b = ownedTokens_at s b) /\
    ownedTokenIndex_at s' tokenId = 0 /\
    (forall j, j <> tokenId -> ownedTokenIndex_at s' j = ownedTokenIndex_at s j).
Proof.
  destruct (addOwnedToken_spec s a tokenId) as (_ & _ & _ & _ & Hown & Hind).
  set (s1 := _addOwnedToken a tokenId s) in *.
  assert (Hp : ownedTokens_at s1 a !! length (ownedTokens_at s a) = Some tokenId).
  { rewrite Hown, decide_True by done. by rewrite list_lookup_middle. }
  assert (Hidx : ownedTokenIndex_at s1 tokenId = N.of_nat (length (ownedTokens_at s a))).
  { by rewrite Hind, decide_True. }
  destruct (removeOwnedToken_spec s1 a tokenId _ Hp Hidx)
    as (s' & Hrm & _ & _ & _ & _ & Hown' & Hind').
  exists s'. split; [done |]. split; [| split].
  - intros b. rewrite Hown'. destruct (decide (b = a)) as [->|Hb].
    + rewrite Hown, decide_True by done. apply swap_remove_last.
    + by rewrite Hown, decide_False.
  - by rewrite Hind', decide_True.
  - intros j Hj. rewrite Hind', decide_False by done.
    rewrite decide_False.
    + by rewrite Hind, decide_False.
    + intros [Hne _]. apply Hne. rewrite Hown, decide_True by done.
      rewrite length_app. simpl. lia.
Qed.

(** ** The ledger, as the reads show it *)

(** X11. In every state of the contract, [tokensOfOwner a] lists, once
    each, exactly the tokens for which [ownerOf] returns [a]; for each of
    them [tokenURI] and [getEncryptedRealOwner] succeed; the length of the
    list is [balanceOf a]; and the zero address owns nothing. *)
Theorem X11_tokensOfOwner_agrees_with_ownerOf (s : state) (a : address) :
  reachable s ->
  NoDup (tokensOfOwner a s) /\
  (forall tokenId, tokenId ∈ tokensOfOwner a s <-> ownerOf tokenId s = Ok a) /\
  (forall tokenId, tokenId ∈ tokensOfOwner a s ->
     exists uri handle,
       tokenURI tokenId s = Ok uri /\ getEncryptedRealOwner tokenId s = Ok handle) /\
  (a <> 0 -> balanceOf a s = Ok (N.of_nat (length (tokensOfOwner a s)))) /\
  tokensOfOwner 0 s = [].
Proof.
  intros Hr. pose proof (reachable_wf s Hr) as Hwf. unfold tokensOfOwner.
  split; [apply (wf_nodup s Hwf) |]. split; [| split; [| split]].
  - intros tokenId. rewrite ownerOf_Ok_iff. apply (wf_owned s Hwf).
  - intros tokenId Hin. apply (wf_owned s Hwf) in Hin as [Ho Ha].
    unfold tokenURI, getEncryptedRealOwner. rewrite getToken_Ok by congruence.
    by eexists _, _.
  - intros Ha. rewrite balanceOf_Ok by done. f_equal. apply (wf_balance s Hwf).
  - destruct (ownedTokens_at s 0) as [|x l] eqn:Hl; [done |].
    assert (Hin : x ∈ ownedTokens_at s 0) by (rewrite Hl; apply list_elem_of_here).
    by apply (wf_owned s Hwf) in Hin as [_ Hin].
Qed.

(** X12. In every state of the contract, a successful transfer of
    [tokenId] from [from] to [to] touches nothing else: [totalSupply] is
    unchanged, every other token keeps its owner, its URI and its handle,
    and every address other than [from] and [to] keeps its balance and its
    list of tokens. *)
Theorem X12_transferFrom_leaves_the_rest (s s' : state) (sender from to tokenId : N) evs :
  reachable s ->
  transferFrom sender from to tokenId s = Ok (s', evs) ->
  totalSupply s' = totalSupply s /\
  (forall j, j <> tokenId ->
     ownerOf j s' = ownerOf j s /\ tokenURI j s' = tokenURI j s /\
     getEncryptedRealOwner j s' = getEncryptedRealOwner j s) /\
  (forall a, a <> from -> a <> to ->
     balanceOf a s' = balanceOf a s /\ tokensOfOwner a s' = tokensOfOwner a s).
Proof.
  intros Hr H. pose proof (reachable_wf s Hr) as Hwf.
  destruct (transferFrom_Ok_inv _ _ _ _ _ _ _ Hwf H) as (p & _ & _ & _ & _ & Htp & _).
  split. { unfold totalSupply. by rewrite (tp_next _ _ _ _ _ _ Htp). }
  split.
  - intros j Hj.
    assert (Htok : tokens_at s' j = tokens_at s j).
    { unfold tokens_at. by rewrite (tp_tokens _ _ _ _ _ _ Htp), lookup_insert_ne. }
    unfold ownerOf, tokenURI, getEncryptedRealOwner, _getToken. by rewrite Htok.
  - intros a Haf Hat. split.
    + unfold balanceOf, balances_at. rewrite (tp_balances _ _ _ _ _ _ Htp).
      by rewrite !lookup_insert_ne.
    + unfold tokensOfOwner. rewrite (tp_owned _ _ _ _ _ _ Htp).
      by rewrite !decide_False.
Qed.

(** X13. In every state of the contract, after a successful transfer of
    [tokenId] from [A] to another address [B], the token is the last entry
    of [B]'s list, the entries before it being those [B] had, in the same
    order; [A]'s list is a rearrangement of what it was without the token. *)
Theorem X13_transferFrom_lists (s s' : state) (A B tokenId : N) evs :
  reachable s -> A <> B ->
  transferFrom A A B tokenId s = Ok (s', evs) ->
  tokensOfOwner B s' = tokensOfOwner B s ++ [tokenId] /\
  tokenId :: tokensOfOwner A s' ≡ₚ tokensOfOwner A s.
Proof.
  intros Hr HAB H. pose proof (reachable_wf s Hr) as Hwf.
  destruct (transferFrom_Ok_inv _ _ _ _ _ _ _ Hwf H) as (p & Hp & _ & _ & _ & Htp & _).
  unfold tokensOfOwner. rewrite !(tp_owned _ _ _ _ _ _ Htp). split.
  - rewrite decide_True by done. by rewrite decide_False.
  - rewrite decide_False, decide_True by done. by apply swap_remove_Permutation.
Qed.

(** X14. In every state of the contract, a token that [A] has transferred
    to another address [B] can be transferred back by [B]; afterwards [A] owns
    it again, the balances of [A] and [B] are what they were before the two
    transfers, [B]'s list is what it was, and [A]'s list is a rearrangement
    of what it was. *)
Theorem X14_transfer_there_and_back (s s1 : state) (A B tokenId : N) evs :
  reachable s -> A <> B ->
  transferFrom A A B tokenId s = Ok (s1, evs) ->
  exists s2,
    transferFrom B B A tokenId s1 =
      Ok (s2, [Transfer B A tokenId; DecryptPermissionGranted tokenId A]) /\
    ownerOf tokenId s2 = Ok A /\
    balanceOf A s2 = balanceOf A s /\
    balanceOf B s2 = balanceOf B s /\
    tokensOfOwner B s2 = tokensOfOwner B s /\
    tokensOfOwner A s2 ≡ₚ tokensOfOwner A s.
Proof.
  intros Hr HAB H1. pose proof (reachable_wf s Hr) as Hwf.
  destruct (transferFrom_checks _ _ _ _ _ _ _ H1) as (Ho & HA & _ & HB).
  pose proof (transferFrom_wf _ _ _ _ _ _ _ Hwf H1) as Hwf1.
  destruct (transferFrom_Ok_inv _ _ _ _ _ _ _ Hwf H1) as (p1 & Hp1 & _ & _ & _ & Htp1 & _).
  assert (Ho1 : owner (tokens_at s1 tokenId) = B).
  { unfold tokens_at. by rewrite (tp_tokens _ _ _ _ _ _ Htp1), lookup_insert_eq. }
  assert (HownB1 : ownedTokens_at s1 B = ownedTokens_at s B ++ [tokenId]).
  { rewrite (tp_owned _ _ _ _ _ _ Htp1), decide_True by done. by rewrite decide_False. }
  assert (HownA1 : ownedTokens_at s1 A = swap_remove (ownedTokens_at s A) p1).
  { rewrite (tp_owned _ _ _ _ _ _ Htp1), decide_False by done. by rewrite decide_True. }
  assert (Hle : (if decide (A = B) then balances_at s1 B - 1 else balances_at s1 A) + 1
                <= max_uint256).
  { pose proof (wf_balance_le s1 A Hwf1). pose proof (wf_next s1 Hwf1).
    rewrite decide_False by done. lia. }
  destruct (transferFrom_Ok B A tokenId s1 Hwf1 Ho1 HB HA Hle) as (s2 & H2).
  exists s2. split; [done |].
  pose proof (transferFrom_wf _ _ _ _ _ _ _ Hwf1 H2) as Hwf2.
  destruct (transferFrom_Ok_inv _ _ _ _ _ _ _ Hwf1 H2) as (p2 & Hp2 & _ & _ & _ & Htp2 & _).
  assert (Hp2' : p2 = length (ownedTokens_at s B)).
  { apply (NoDup_lookup (ownedTokens_at s1 B) _ _ tokenId (wf_nodup s1 Hwf1 B) Hp2).
    rewrite HownB1. by rewrite list_lookup_middle. }
  assert (HownB2 : ownedTokens_at s2 B = ownedTokens_at s B).
  { rewrite (tp_owned _ _ _ _ _ _ Htp2), decide_False by done.
    rewrite decide_True by done. rewrite HownB1, Hp2'. apply swap_remove_last. }
  assert (HownA2 : ownedTokens_at s2 A ≡ₚ ownedTokens_at s A).
  { rewrite (tp_owned _ _ _ _ _ _ Htp2), decide_True by done.
    rewrite decide_False by done. rewrite HownA1.
    rewrite <- (swap_remove_Permutation _ p1 tokenId Hp1) at 2.
    change (tokenId :: swap_remove (ownedTokens_at s A) p1)
      with ([tokenId] ++ swap_remove (ownedTokens_at s A) p1).
    apply Permutation_app_comm. }
  split.
  { apply ownerOf_Ok_iff. split; [| done].
    unfold tokens_at. by rewrite (tp_tokens _ _ _ _ _ _ Htp2), lookup_insert_eq. }
  split.
  { rewrite !balanceOf_Ok by done. f_equal.
    rewrite (wf_balance s2 Hwf2), (wf_balance s Hwf). by rewrite HownA2. }
  split.
  { rewrite !balanceOf_Ok by done. f_equal.
    rewrite (wf_balance s2 Hwf2), (wf_balance s Hwf). by rewrite HownB2. }
  split; [exact HownB2 | exact HownA2].
Qed.

(** ** Who can change what *)

Lemma Forall_valid_senders_all (V : address -> Prop) cs :
  (forall a, a <> 0 -> V a) -> Forall valid_call cs -> Forall (senders_all V) cs.
Proof.
  intros HV Hcs. apply (Forall_impl _ _ _ Hcs). intros c Hc.
  apply valid_call_senders_all in Hc. by apply (senders_all_impl (fun a => a <> 0)).
Qed.

(** X15. Only its owner moves a token: in every state of the contract in
    which [A] owns [tokenId], after any sequence of calls none of which, nor
    any call re-entered from a callback, is sent by [A], [A] still owns
    the token. *)
Theorem X15_only_the_owner_moves_a_token (s : state) (cs : list call) (A tokenId : N) :
  reachable s -> ownerOf tokenId s = Ok A ->
  Forall (senders_all (fun a => a <> 0 /\ a <> A)) cs ->
  ownerOf tokenId (run cs s) = Ok A.
Proof.
  intros Hr Hown Hcs. pose proof (reachable_wf s Hr) as Hwf.
  apply ownerOf_Ok_iff in Hown as [Ho HA].
  apply ownerOf_Ok_iff. split; [| done].
  apply (run_invariant (fun s' => wf s' /\ owner (tokens_at s' tokenId) = A)
           (fun a => a <> 0 /\ a <> A)) with (s := s) (cs := cs); [| | | done | done].
  - intros sender uri ct proof s0 newId s' evs [Hs _] [Hwf0 Ho0] Hm.
    split; [by apply (mint_wf _ _ _ _ _ _ _ _ Hwf0 Hs Hm) |].
    apply mint_Ok_inv in Hm as (handle & _ & -> & _ & _ & -> & _).
    rewrite tokens_at_mkState_insert. rewrite decide_False; [done |].
    intros ->. assert (Hex : owner (tokens_at s0 (_nextTokenId s0)) <> 0) by congruence.
    apply (wf_exists s0 Hwf0) in Hex. lia.
  - intros sender j account s0 s' evs _ [Hwf0 Ho0] Hg.
    apply grant_Ok_inv in Hg as (_ & _ & _ & -> & _).
    split; [by apply FHE_allow_wf | done].
  - intros sender from to j s0 s' evs [_ Hs] [Hwf0 Ho0] Ht.
    split; [by apply (transferFrom_wf _ _ _ _ _ _ _ Hwf0 Ht) |].
    destruct (transferFrom_checks _ _ _ _ _ _ _ Ht) as (Hoj & _ & -> & _).
    apply transferFrom_frame in Ht as (_ & Htok & _).
    unfold tokens_at. rewrite Htok, lookup_insert_ne; [done |].
    intros ->. congruence.
Qed.

(** X16. No token is ever destroyed and the supply never shrinks: from
    every state of the contract, after any sequence of calls, [totalSupply]
    is at least what it was and every token that had an owner has one. *)
Theorem X16_tokens_are_never_destroyed (s : state) (cs : list call) :
  reachable s -> Forall valid_call cs ->
  (exists n m, totalSupply s = Ok n /\ totalSupply (run cs s) = Ok m /\ n <= m) /\
  (forall tokenId a, ownerOf tokenId s = Ok a ->
     exists b, ownerOf tokenId (run cs s) = Ok b).
Proof.
  intros Hr Hcs. pose proof (reachable_wf s Hr) as Hwf.
  pose proof (reachable_wf _ (reachable_run cs s Hcs Hr)) as Hwf'.
  split.
  - exists (_nextTokenId s - 1), (_nextTokenId (run cs s) - 1).
    unfold totalSupply.
    rewrite !checked_sub_Ok by (apply (wf_next _ Hwf) || apply (wf_next _ Hwf')).
    split; [done |]. split; [done |].
    assert (Hmono : _nextTokenId s <= _nextTokenId (run cs s)); [| lia].
    apply (run_invariant (fun s' => _nextTokenId s <= _nextTokenId s')
             (fun _ => True)) with (cs := cs); [| | | | done].
    + intros sender uri ct proof s0 newId s' evs _ Hle Hm.
      apply mint_Ok_inv in Hm as (handle & _ & -> & _ & _ & -> & _). simpl. lia.
    + intros sender j account s0 s' evs _ Hle Hg.
      by apply grant_Ok_inv in Hg as (_ & _ & _ & -> & _).
    + intros sender from to j s0 s' evs _ Hle Ht.
      apply transferFrom_frame in Ht as (Hn & _). by rewrite Hn.
    + by apply Forall_valid_senders_all.
  - intros tokenId a Hown. apply ownerOf_Ok_iff in Hown as [Ho Ha].
    assert (Hex : owner (tokens_at s tokenId) <> 0) by congruence.
    destruct (run_same_content cs s tokenId Hcs Hwf Hex) as (Hex' & _).
    exists (owner (tokens_at (run cs s) tokenId)). by apply ownerOf_Ok_iff.
Qed.

(** ** Who can decrypt *)

Lemma reachable_owner_can_decrypt s : reachable s -> owner_can_decrypt this s.
Proof.
  intros (cs & Hcs & <-).
  apply (run_invariant (fun s' => wf s' /\ owner_can_decrypt this s')
           (fun a => a <> 0)) with (cs := cs) (s := deployed).
  - intros sender uri ct proof s0 newId s' evs Hs [Hwf0 Hinv] Hm.
    split; [by apply (mint_wf _ _ _ _ _ _ _ _ Hwf0 Hs Hm) |].
    apply mint_Ok_inv in Hm as (handle & _ & -> & _ & _ & -> & _).
    intros j. rewrite tokens_at_mkState_insert. unfold isAllowed.
    destruct (decide (j = _nextTokenId s0)) as [->|Hj]; simpl.
    + intros _. split.
      * apply elem_of_union_l. by apply elem_of_singleton.
      * apply elem_of_union_r, elem_of_union_l. by apply elem_of_singleton.
    + intros Hex. destruct (Hinv j Hex) as [H1 H2].
      split; by do 2 apply elem_of_union_r.
  - intros sender j account s0 s' evs _ [Hwf0 Hinv] Hg.
    apply grant_Ok_inv in Hg as (_ & _ & _ & -> & _).
    split; [by apply FHE_allow_wf |].
    intros k Hex. rewrite tokens_at_FHE_allow in *.
    destruct (Hinv k Hex) as [H1 H2]. unfold isAllowed. simpl.
    split; by apply elem_of_union_r.
  - intros sender from to j s0 s' evs _ [Hwf0 Hinv] Ht.
    split; [by apply (transferFrom_wf _ _ _ _ _ _ _ Hwf0 Ht) |].
    destruct (transferFrom_checks _ _ _ _ _ _ _ Ht) as (Hoj & Hfrom & _ & Hto).
    apply transferFrom_frame in Ht as (_ & Htok & Hacl).
    intros k. unfold isAllowed, tokens_at. rewrite Htok, Hacl, default_insert.
    destruct (decide (k = j)) as [->|Hk]; simpl.
    + intros _. split.
      * apply elem_of_union_l. by apply elem_of_singleton.
      * apply elem_of_union_r. apply (Hinv j). congruence.
    + intros Hex. destruct (Hinv k Hex) as [H1 H2].
      split; by apply elem_of_union_r.
  - by apply Forall_valid_senders_all.
  - split; [apply deployed_wf |]. intros j Hex. exfalso. apply Hex.
    unfold tokens_at. simpl. by rewrite lookup_empty.
Qed.

(** X17. In every state of the contract, the owner of a token and the
    contract itself may decrypt the token's ciphertext handle. *)
Theorem X17_owner_and_contract_can_decrypt (s : state) (tokenId : uint256)
    (a : address) (handle : eaddress) :
  reachable s ->
  ownerOf tokenId s = Ok a ->
  getEncryptedRealOwner tokenId s = Ok handle ->
  isAllowed handle a s /\ isAllowed handle this s.
Proof.
  intros Hr Hown Hh. apply ownerOf_Ok_iff in Hown as [Ho Ha].
  assert (Hex : owner (tokens_at s tokenId) <> 0) by congruence.
  unfold getEncryptedRealOwner in Hh. rewrite getToken_Ok in Hh by done.
  injection Hh as <-. rewrite <- Ho.
  by apply (reachable_owner_can_decrypt s Hr tokenId).
Qed.

(** X18. Whoever has owned a token keeps the right to decrypt it: if [a]
    owns [tokenId] in some state of the contract, then after any sequence of
    calls, transfers of the token included, the token has the same
    ciphertext handle and [a] may decrypt it. *)
Theorem X18_former_owners_can_still_decrypt (s : state) (cs : list call)
    (tokenId : uint256) (a : address) (handle : eaddress) :
  reachable s -> Forall valid_call cs ->
  ownerOf tokenId s = Ok a ->
  getEncryptedRealOwner tokenId s = Ok handle ->
  getEncryptedRealOwner tokenId (run cs s) = Ok handle /\
  isAllowed handle a (run cs s).
Proof.
  intros Hr Hcs Hown Hh. pose proof (reachable_wf s Hr) as Hwf.
  apply ownerOf_Ok_iff in Hown as [Ho Ha].
  assert (Hex : owner (tokens_at s tokenId) <> 0) by congruence.
  unfold getEncryptedRealOwner in Hh. rewrite getToken_Ok in Hh by done.
  injection Hh as <-.
  destruct (run_same_content cs s tokenId Hcs Hwf Hex) as (Hex' & Hr' & _).
  split.
  - unfold getEncryptedRealOwner. rewrite getToken_Ok by done.
    rewrite bind_Ok. by rewrite Hr'.
  - unfold isAllowed. apply (run_acl_mono cs s). rewrite <- Ho.
    by apply (reachable_owner_can_decrypt s Hr tokenId).
Qed.

(** ** Safe transfers and the frame of a mint *)


(** X20. A successful mint touches nothing but the new token and its
    minter: every other token keeps its owner, its URI and its handle, every
    other address keeps its balance and its list, the new id is appended to
    the minter's list, and the events are the transfer from the zero
    address, the mint and the grant to the minter. *)
Theorem X20_mint_leaves_the_rest (s s' : state) (sender : address) (uri : string)
    (ct : externalEaddress) (proof : bytes) (tokenId : uint256) evs :
  mint sender uri ct proof s = Ok (tokenId, s', evs) ->
  (forall j, j <> tokenId ->
     ownerOf j s' = ownerOf j s /\ tokenURI j s' = tokenURI j s /\
     getEncryptedRealOwner j s' = getEncryptedRealOwner j s) /\
  (forall a, a <> sender ->
     balanceOf a s' = balanceOf a s /\ tokensOfOwner a s' = tokensOfOwner a s) /\
  tokensOfOwner sender s' = tokensOfOwner sender s ++ [tokenId] /\
  evs = [Transfer 0 sender tokenId; Minted sender tokenId uri;
         DecryptPermissionGranted tokenId sender].
Proof.
  intros H. apply mint_Ok_inv in H as (handle & _ & -> & _ & _ & -> & ->).
  split; [| split; [| split; [| done]]].
  - intros j Hj.
    assert (Htok : forall n b o i a,
      tokens_at (mkState n (<[_nextTokenId s := mkTokenData sender handle uri]> (_tokens s))
                   b o i a) j = tokens_at s j).
    { intros. rewrite tokens_at_mkState_insert. by rewrite decide_False. }
    unfold ownerOf, tokenURI, getEncryptedRealOwner, _getToken. by rewrite !Htok.
  - intros a Ha. split.
    + unfold balanceOf, balances_at. simpl. by rewrite lookup_insert_ne.
    + unfold tokensOfOwner, ownedTokens_at. simpl. by rewrite lookup_insert_ne.
  - unfold tokensOfOwner, ownedTokens_at at 1. simpl. by rewrite lookup_insert_eq.
Qed.

(** ** The mint form *)

(** X21. The "Next token" label that the mint form computes from the
    supply it has read is the decimal numeral of the id that a mint in that
    state returns. *)
Theorem X21_next_token_label (s s' : state) (n : N) (sender : address)
    (uri : string) (ct : externalEaddress) (proof : bytes) (tokenId : uint256) evs :
  totalSupply s = Ok n ->
  mint sender uri ct proof s = Ok (tokenId, s', evs) ->
  nextTokenId (Some n) = pretty tokenId.
Proof.
  intros Hn Hm. apply checked_sub_Ok_inv in Hn as [-> Hge].
  apply mint_Ok_inv in Hm as (_ & _ & -> & _).
  unfold nextTokenId.
  replace (_nextTokenId s) with (_nextTokenId s - 1 + 1) at 2 by lia.
  by destruct (_nextTokenId s - 1).
Qed.

End Ledger.

(** * The claims on the example deployment *)

Lemma example_minted_reachable :
  reachable example_this example_verifyInput example_minted.
Proof.
  exists [Mint alice "ipfs://shadowmint/3" 7 [example_this; alice; 7]].
  split; [| reflexivity]. repeat constructor. discriminate.
Defined.

(** The failures of [transferFrom], one check at a time.  In the first
    example three checks would fail; the first in order decides. *)

Example transferFrom_unknown_token :
  transferFrom carol alice 0 9 example_minted
  = Err (Revert "Token does not exist").
Proof. reflexivity. Qed.

Example transferFrom_incorrect_owner :
  transferFrom carol bob carol 1 example_minted
  = Err (Revert "Transfer from incorrect owner").
Proof. reflexivity. Qed.

Example transferFrom_by_non_owner :
  transferFrom carol alice carol 1 example_minted
  = Err (Revert "Caller is not owner").
Proof. reflexivity. Qed.

Example transferFrom_to_zero_address :
  transferFrom alice alice 0 1 example_minted
  = Err (Revert "Invalid receiver").
Proof. reflexivity. Qed.

(** A safe transfer to a contract that answers with another value than the
    selector is reverted; one whose callback passes the token on and then
    answers with the selector goes through, callback included. *)

Example safeTransferFrom_rejected :
  apply_call example_this example_verifyInput
    (SafeTransferFrom alice alice bob 1 (Returns [] 0)) example_minted
  = example_minted.
Proof. vm_compute. reflexivity. Qed.

Example safeTransferFrom_reentered :
  ownerOf 1
    (apply_call example_this example_verifyInput
       (SafeTransferFrom alice alice bob 1
          (Returns [TransferFrom bob bob carol 1] onERC721Received_selector))
       example_minted)
  = Ok carol.
Proof. vm_compute. reflexivity. Qed.

Lemma C1_witness :
  totalSupply example_transferred = Ok (_nextTokenId example_transferred - 1) /\
  sum_balanceOf (dom (_balances example_transferred)) example_transferred
  = _nextTokenId example_transferred - 1.
Proof.
  apply (C1_balances_sum_to_totalSupply example_this example_verifyInput
           [Mint alice "ipfs://shadowmint/3" 7 [example_this; alice; 7];
            TransferFrom alice alice bob 1]).
  - repeat constructor; discriminate.
  - intros a n. apply balanceOf_nonzero_dom.
Defined.

Lemma C2_counterexample :
  reachable example_this example_verifyInput example_minted /\
  ownerOf 1 example_minted = Ok alice /\
  transferFrom alice alice alice 1 example_minted =
    Ok (example_self_transferred,
        [Transfer alice alice 1; DecryptPermissionGranted 1 alice]) /\
  balanceOf alice example_minted = Ok 1 /\
  balanceOf alice example_self_transferred = Ok 1 /\
  1 ∈ tokensOfOwner alice example_self_transferred.
Proof.
  split; [exact example_minted_reachable |].
  split; [reflexivity |]. split; [vm_compute; reflexivity |].
  split; [reflexivity |]. split; [vm_compute; reflexivity |].
  vm_compute. apply list_elem_of_here.
Qed.

Lemma C2_witness :
  exists a b handle,
    balanceOf alice example_minted = Ok a /\
    balanceOf bob example_minted = Ok b /\
    getEncryptedRealOwner 1 example_minted = Ok handle /\
    ownerOf 1 example_transferred = Ok bob /\
    1 <= a /\ balanceOf alice example_transferred = Ok (a - 1) /\
    balanceOf bob example_transferred = Ok (b + 1) /\
    (1 ∉ tokensOfOwner alice example_transferred) /\
    occurrences 1 (tokensOfOwner bob example_transferred) = 1%nat /\
    isAllowed handle bob example_transferred /\
    (forall h account,
       isAllowed h account example_minted ->
       isAllowed h account example_transferred).
Proof.
  apply (C2_transferFrom_moves_token example_this example_verifyInput
           example_minted example_transferred alice bob 1
           [Transfer alice bob 1; DecryptPermissionGranted 1 bob]).
  - exact example_minted_reachable.
  - discriminate.
  - reflexivity.
  - vm_compute. reflexivity.
Defined.

Lemma C3_witness :
  isAllowed 1007 alice example_minted /\
  isAllowed 1007 alice
    (run example_this example_verifyInput
       [TransferFrom alice alice bob 1; GrantDecryptPermission bob 1 carol]
       example_minted).
Proof.
  assert (H : isAllowed 1007 alice example_minted).
  { unfold isAllowed. apply (bool_decide_unpack _). vm_compute. exact I. }
  split; [exact H |].
  apply (C3_grants_are_never_revoked example_this example_verifyInput). exact H.
Defined.

Lemma C4_witness :
  1 = _nextTokenId deployed /\ 1 <= 1 /\ _nextTokenId example_minted = 1 + 1 /\
  ownerOf 1 deployed = Err (Revert "Token does not exist") /\
  ownerOf 1 example_minted = Ok alice /\
  (exists b, balanceOf alice deployed = Ok b /\
             balanceOf alice example_minted = Ok (b + 1)) /\
  occurrences 1 (tokensOfOwner alice example_minted) = 1%nat /\
  tokenURI 1 example_minted = Ok "ipfs://shadowmint/3"%string /\
  exists handle,
    getEncryptedRealOwner 1 example_minted = Ok handle /\
    isAllowed handle example_this example_minted /\
    isAllowed handle alice example_minted.
Proof.
  apply (C4_mint_effects example_this example_verifyInput deployed example_minted
           alice "ipfs://shadowmint/3" 7 [example_this; alice; 7] 1
           [Transfer 0 alice 1; Minted alice 1 "ipfs://shadowmint/3";
            DecryptPermissionGranted 1 alice]).
  - apply reachable_deployed.
  - discriminate.
  - vm_compute. reflexivity.
Defined.

Lemma C5_witness :
  transferFrom carol alice 0 9 example_minted
    = Err (Revert "Token does not exist") /\
  transferFrom carol bob carol 1 example_minted
    = Err (Revert "Transfer from incorrect owner") /\
  transferFrom carol alice carol 1 example_minted
    = Err (Revert "Caller is not owner") /\
  transferFrom alice alice 0 1 example_minted
    = Err (Revert "Invalid receiver") /\
  apply_call example_this example_verifyInput
    (TransferFrom carol alice carol 1) example_minted = example_minted.
Proof.
  pose proof (C5_transferFrom_checks_in_order example_this example_verifyInput
                example_minted) as H.
  split.
  { destruct (H carol alice 0 9) as (H1 & _). apply H1. reflexivity. }
  split.
  { destruct (H carol bob carol 1) as (_ & H2 & _).
    apply (H2 alice); [reflexivity | discriminate]. }
  split.
  { destruct (H carol alice carol 1) as (_ & _ & H3 & _).
    apply H3; [reflexivity | discriminate]. }
  split.
  { destruct (H alice alice 0 1) as (_ & _ & _ & H4 & _).
    apply H4; reflexivity. }
  destruct (H carol alice carol 1) as (_ & _ & _ & _ & H5).
  apply (H5 (Revert "Caller is not owner")). reflexivity.
Defined.

Lemma C6_witness :
  example_verifyInput example_this alice 7 [] = None /\
  mint example_this example_verifyInput alice "ipfs://forged" 7 [] example_minted
    = Err InvalidCiphertext /\
  apply_call example_this example_verifyInput
    (Mint alice "ipfs://forged" 7 []) example_minted = example_minted /\
  (forall sender' uri' ct' proof' tokenId s' evs,
    mint example_this example_verifyInput sender' uri' ct' proof'
      (apply_call example_this example_verifyInput
         (Mint alice "ipfs://forged" 7 []) example_minted)
      = Ok (tokenId, s', evs) ->
    tokenId = _nextTokenId example_minted) /\
  exists s' evs,
    mint example_this example_verifyInput bob "ipfs://shadowmint/4" 8
      [example_this; bob; 8]
      (apply_call example_this example_verifyInput
         (Mint alice "ipfs://forged" 7 []) example_minted)
    = Ok (2, s', evs).
Proof.
  split; [reflexivity |].
  destruct (C6_mint_invalid_ciphertext example_this example_verifyInput
              example_minted alice "ipfs://forged" 7 [] eq_refl)
    as (Hfail & Hsame & Hnext).
  split; [exact Hfail |]. split; [exact Hsame |]. split; [exact Hnext |].
  eexists. eexists. vm_compute. reflexivity.
Defined.

Lemma C7_witness :
  exists handle s1,
    getEncryptedRealOwner 1 example_minted = Ok handle /\
    grantDecryptPermission alice 1 carol example_minted =
      Ok (s1, [DecryptPermissionGranted 1 carol]) /\
    acl s1 = {[ (handle, carol) ]} ∪ acl example_minted /\
    isAllowed handle carol s1 /\
    grantDecryptPermission alice 1 carol s1 =
      Ok (s1, [DecryptPermissionGranted 1 carol]) /\
    apply_call example_this example_verifyInput (GrantDecryptPermission alice 1 carol)
      (apply_call example_this example_verifyInput
         (GrantDecryptPermission alice 1 carol) example_minted)
    = apply_call example_this example_verifyInput
        (GrantDecryptPermission alice 1 carol) example_minted.
Proof.
  apply (C7_grant_is_idempotent example_this example_verifyInput).
  - reflexivity.
  - discriminate.
Defined.

Lemma C8_witness :
  ownerOf 1 example_minted = Ok alice /\
  ownerOf 2 example_minted = Err (Revert "Token does not exist") /\
  balanceOf 0 example_minted = Err (Revert "Invalid owner") /\
  totalSupply example_minted = Ok (_nextTokenId example_minted - 1).
Proof.
  destruct (C8_reads_fail_exactly_when example_this example_verifyInput
              example_minted example_minted_reachable)
    as (_ & Hnot & _ & Hzero & Htotal).
  split; [reflexivity |]. split; [| split; [exact Hzero | exact Htotal]].
  apply (Hnot 2). vm_compute. intros [_ H]. discriminate H.
Defined.

Lemma C9_witness :
  getEncryptedRealOwner 1
    (run example_this example_verifyInput
       [TransferFrom alice alice bob 1; GrantDecryptPermission bob 1 carol;
        Mint carol "ipfs://shadowmint/4" 8 [example_this; carol; 8]]
       example_minted) = Ok 1007 /\
  tokenURI 1
    (run example_this example_verifyInput
       [TransferFrom alice alice bob 1; GrantDecryptPermission bob 1 carol;
        Mint carol "ipfs://shadowmint/4" 8 [example_this; carol; 8]]
       example_minted) = Ok "ipfs://shadowmint/3"%string.
Proof.
  apply (C9_content_is_immutable example_this example_verifyInput).
  - exact example_minted_reachable.
  - repeat constructor; discriminate.
  - reflexivity.
  - reflexivity.
Defined.

Lemma C10_witness :
  exists s',
    transferFrom alice alice alice 1 example_minted =
      Ok (s', [Transfer alice alice 1; DecryptPermissionGranted 1 alice]) /\
    ownerOf 1 s' = Ok alice /\
    balanceOf alice s' = balanceOf alice example_minted /\
    occurrences 1 (tokensOfOwner alice s') = 1%nat /\
    (exists p, tokensOfOwner alice s' !! p = Some 1 /\
               ownedTokenIndex_at s' 1 = N.of_nat p) /\
    wf s'.
Proof.
  apply (C10_self_transfer example_this example_verifyInput).
  - exact example_minted_reachable.
  - reflexivity.
Defined.

(** * The further properties on the example deployment *)

Lemma example_four_reachable :
  reachable example_this example_verifyInput example_four.
Proof.
  exists [Mint alice "ipfs://shadowmint/1" 7 [example_this; alice; 7];
          Mint alice "ipfs://shadowmint/2" 8 [example_this; alice; 8];
          Mint alice "ipfs://shadowmint/3" 9 [example_this; alice; 9];
          Mint bob "ipfs://shadowmint/4" 10 [example_this; bob; 10]].
  split; [| reflexivity]. repeat constructor; discriminate.
Defined.

Lemma X1_witness :
  grantDecryptPermission alice 9 0 example_minted
    = Err (Revert "Token does not exist") /\
  grantDecryptPermission carol 1 0 example_minted
    = Err (Revert "Caller is not token owner") /\
  grantDecryptPermission alice 1 0 example_minted
    = Err (Revert "Invalid account") /\
  apply_call example_this example_verifyInput
    (GrantDecryptPermission carol 1 carol) example_minted = example_minted.
Proof.
  pose proof (X1_grant_checks_in_order example_this example_verifyInput
                example_minted) as H.
  split.
  { destruct (H alice 9 0) as (H1 & _). apply H1. reflexivity. }
  split.
  { destruct (H carol 1 0) as (_ & H2 & _).
    apply (H2 alice); [reflexivity | discriminate]. }
  split.
  { destruct (H alice 1 0) as (_ & _ & H3 & _). apply H3; reflexivity. }
  destruct (H carol 1 carol) as (_ & _ & _ & H4).
  apply (H4 (Revert "Caller is not token owner")). reflexivity.
Defined.

Lemma X2_witness :
  ownerOf 1 (apply_call example_this example_verifyInput
               (GrantDecryptPermission alice 1 carol) example_minted)
    = ownerOf 1 example_minted /\
  tokensOfOwner alice
    (apply_call example_this example_verifyInput
       (GrantDecryptPermission alice 1 carol) example_minted)
    = tokensOfOwner alice example_minted.
Proof.
  destruct (X2_grant_changes_only_the_acl
              example_minted
              (apply_call example_this example_verifyInput
                 (GrantDecryptPermission alice 1 carol) example_minted)
              alice 1 carol [DecryptPermissionGranted 1 carol])
    as (_ & Htok & Hacc & _).
  - vm_compute. reflexivity.
  - split; [apply (Htok 1) | apply (Hacc alice)].
Defined.


Lemma X4_witness : totalSupply example_minted = Ok 1.
Proof.
  apply (X4_totalSupply_is_the_last_minted_id example_this example_verifyInput
           deployed example_minted alice "ipfs://shadowmint/3" 7
           [example_this; alice; 7] 1
           [Transfer 0 alice 1; Minted alice 1 "ipfs://shadowmint/3";
            DecryptPermissionGranted 1 alice]).
  vm_compute. reflexivity.
Defined.

Lemma X5_witness :
  exists s',
    mint example_this example_verifyInput bob "ipfs://shadowmint/4" 8
      [example_this; bob; 8] example_minted
    = Ok (_nextTokenId example_minted, s',
          [Transfer 0 bob (_nextTokenId example_minted);
           Minted bob (_nextTokenId example_minted) "ipfs://shadowmint/4";
           DecryptPermissionGranted (_nextTokenId example_minted) bob]).
Proof.
  apply (X5_mint_succeeds example_this example_verifyInput example_minted bob
           "ipfs://shadowmint/4" 8 [example_this; bob; 8] 1008).
  - exact example_minted_reachable.
  - reflexivity.
  - vm_compute. reflexivity.
Defined.

Lemma X6_witness :
  mint example_this example_verifyInput alice "ipfs://shadowmint/3" 7
    [example_this; alice; 7] example_exhausted = Err (Panic 17) /\
  apply_call example_this example_verifyInput
    (Mint alice "ipfs://shadowmint/3" 7 [example_this; alice; 7]) example_exhausted
  = example_exhausted.
Proof.
  apply (X6_mint_counter_overflow example_this example_verifyInput example_exhausted
           alice "ipfs://shadowmint/3" 7 [example_this; alice; 7] 1007).
  - reflexivity.
  - reflexivity.
Defined.

Lemma X7_witness :
  (exists s' evs, transferFrom alice alice bob 1 example_minted = Ok (s', evs)) <->
  ownerOf 1 example_minted = Ok alice /\ alice = alice /\ bob <> 0.
Proof.
  apply (X7_transferFrom_succeeds_iff example_this example_verifyInput).
  exact example_minted_reachable.
Defined.

Lemma X8_witness :
  exists s',
    _removeOwnedToken alice 1 example_four = Ok s' /\
    1 :: ownedTokens_at s' alice ≡ₚ ownedTokens_at example_four alice /\
    (forall b, b <> alice -> ownedTokens_at s' b = ownedTokens_at example_four b) /\
    ownedTokenIndex_at s' 1 = 0 /\
    _nextTokenId s' = _nextTokenId example_four /\
    _tokens s' = _tokens example_four /\
    _balances s' = _balances example_four /\ acl s' = acl example_four /\
    (NoDup (ownedTokens_at example_four alice) ->
     (forall i j, ownedTokens_at example_four alice !! i = Some j ->
                  ownedTokenIndex_at example_four j = N.of_nat i) ->
     forall i j, ownedTokens_at s' alice !! i = Some j ->
                 ownedTokenIndex_at s' j = N.of_nat i).
Proof.
  apply (X8_removeOwnedToken_removes_one example_four alice 1 0).
  - vm_compute. reflexivity.
  - vm_compute. reflexivity.
Defined.

Lemma X9_witness :
  _removeOwnedToken alice 1 deployed = Err (Panic 17) /\
  _removeOwnedToken bob 3 example_four = Err (Panic 50).
Proof.
  split.
  - destruct (X9_removeOwnedToken_panics deployed alice 1) as (H1 & _).
    apply H1. reflexivity.
  - destruct (X9_removeOwnedToken_panics example_four bob 3) as (_ & H2).
    apply H2.
    + vm_compute. discriminate.
    + vm_compute. discriminate.
Defined.

Lemma X11_witness :
  NoDup (tokensOfOwner alice example_four) /\
  (forall tokenId,
     tokenId ∈ tokensOfOwner alice example_four <->
     ownerOf tokenId example_four = Ok alice) /\
  (forall tokenId, tokenId ∈ tokensOfOwner alice example_four ->
     exists uri handle,
       tokenURI tokenId example_four = Ok uri /\
       getEncryptedRealOwner tokenId example_four = Ok handle) /\
  (alice <> 0 ->
   balanceOf alice example_four
   = Ok (N.of_nat (length (tokensOfOwner alice example_four)))) /\
  tokensOfOwner 0 example_four = [].
Proof.
  apply (X11_tokensOfOwner_agrees_with_ownerOf example_this example_verifyInput).
  exact example_four_reachable.
Defined.

Lemma X12_witness :
  totalSupply example_four_moved = totalSupply example_four /\
  (forall j, j <> 1 ->
     ownerOf j example_four_moved = ownerOf j example_four /\
     tokenURI j example_four_moved = tokenURI j example_four /\
     getEncryptedRealOwner j example_four_moved
     = getEncryptedRealOwner j example_four) /\
  (forall a, a <> alice -> a <> bob ->
     balanceOf a example_four_moved = balanceOf a example_four /\
     tokensOfOwner a example_four_moved = tokensOfOwner a example_four).
Proof.
  apply (X12_transferFrom_leaves_the_rest example_this example_verifyInput
           example_four example_four_moved alice alice bob 1
           [Transfer alice bob 1; DecryptPermissionGranted 1 bob]).
  - exact example_four_reachable.
  - vm_compute. reflexivity.
Defined.

Lemma X13_witness :
  tokensOfOwner bob example_four_moved = tokensOfOwner bob example_four ++ [1] /\
  1 :: tokensOfOwner alice example_four_moved ≡ₚ tokensOfOwner alice example_four.
Proof.
  apply (X13_transferFrom_lists example_this example_verifyInput
           example_four example_four_moved alice bob 1
           [Transfer alice bob 1; DecryptPermissionGranted 1 bob]).
  - exact example_four_reachable.
  - discriminate.
  - vm_compute. reflexivity.
Defined.

Lemma X14_witness :
  exists s2,
    transferFrom bob bob alice 1 example_four_moved =
      Ok (s2, [Transfer bob alice 1; DecryptPermissionGranted 1 alice]) /\
    ownerOf 1 s2 = Ok alice /\
    balanceOf alice s2 = balanceOf alice example_four /\
    balanceOf bob s2 = balanceOf bob example_four /\
    tokensOfOwner bob s2 = tokensOfOwner bob example_four /\
    tokensOfOwner alice s2 ≡ₚ tokensOfOwner alice example_four.
Proof.
  apply (X14_transfer_there_and_back example_this example_verifyInput
           example_four example_four_moved alice bob 1
           [Transfer alice bob 1; DecryptPermissionGranted 1 bob]).
  - exact example_four_reachable.
  - discriminate.
  - vm_compute. reflexivity.
Defined.

Lemma X15_witness :
  ownerOf 2
    (run example_this example_verifyInput
       [TransferFrom bob bob carol 4;
        SafeTransferFrom carol carol bob 4
          (Returns [GrantDecryptPermission bob 4 carol] onERC721Received_selector);
        TransferFrom bob alice bob 2]
       example_four)
  = Ok alice.
Proof.
  apply (X15_only_the_owner_moves_a_token example_this example_verifyInput).
  - exact example_four_reachable.
  - reflexivity.
  - repeat constructor; discriminate.
Defined.

Lemma X16_witness :
  (exists n m,
     totalSupply example_minted = Ok n /\
     totalSupply
       (run example_this example_verifyInput
          [TransferFrom alice alice bob 1;
           Mint carol "ipfs://shadowmint/4" 8 [example_this; carol; 8]]
          example_minted) = Ok m /\
     n <= m) /\
  (forall tokenId a, ownerOf tokenId example_minted = Ok a ->
     exists b,
       ownerOf tokenId
         (run example_this example_verifyInput
            [TransferFrom alice alice bob 1;
             Mint carol "ipfs://shadowmint/4" 8 [example_this; carol; 8]]
            example_minted) = Ok b).
Proof.
  apply (X16_tokens_are_never_destroyed example_this example_verifyInput).
  - exact example_minted_reachable.
  - repeat constructor; discriminate.
Defined.

Lemma X17_witness :
  isAllowed 1010 bob example_four /\ isAllowed 1010 example_this example_four.
Proof.
  apply (X17_owner_and_contract_can_decrypt example_this example_verifyInput
           example_four 4 bob 1010).
  - exact example_four_reachable.
  - reflexivity.
  - reflexivity.
Defined.

Lemma X18_witness :
  getEncryptedRealOwner 1
    (run example_this example_verifyInput
       [TransferFrom alice alice bob 1; TransferFrom bob bob carol 1]
       example_minted) = Ok 1007 /\
  isAllowed 1007 alice
    (run example_this example_verifyInput
       [TransferFrom alice alice bob 1; TransferFrom bob bob carol 1]
       example_minted).
Proof.
  apply (X18_former_owners_can_still_decrypt example_this example_verifyInput).
  - exact example_minted_reachable.
  - repeat constructor; discriminate.
  - reflexivity.
  - reflexivity.
Defined.


Lemma X20_witness :
  (forall j, j <> 1 ->
     ownerOf j example_minted = ownerOf j deployed /\
     tokenURI j example_minted = tokenURI j deployed /\
     getEncryptedRealOwner j example_minted = getEncryptedRealOwner j deployed) /\
  (forall a, a <> alice ->
     balanceOf a example_minted = balanceOf a deployed /\
     tokensOfOwner a example_minted = tokensOfOwner a deployed) /\
  tokensOfOwner alice example_minted = tokensOfOwner alice deployed ++ [1] /\
  [Transfer 0 alice 1; Minted alice 1 "ipfs://shadowmint/3";
   DecryptPermissionGranted 1 alice]
  = [Transfer 0 alice 1; Minted alice 1 "ipfs://shadowmint/3";
     DecryptPermissionGranted 1 alice].
Proof.
  apply (X20_mint_leaves_the_rest example_this example_verifyInput deployed
           example_minted alice "ipfs://shadowmint/3" 7 [example_this; alice; 7] 1).
  vm_compute. reflexivity.
Defined.

Lemma X21_witness : nextTokenId (Some 1) = pretty 2.
Proof.
  apply (X21_next_token_label example_this example_verifyInput example_minted
           (apply_call example_this example_verifyInput
              (Mint bob "ipfs://shadowmint/4" 8 [example_this; bob; 8]) example_minted)
           1 bob "ipfs://shadowmint/4" 8 [example_this; bob; 8] 2
           [Transfer 0 bob 2; Minted bob 2 "ipfs://shadowmint/4";
            DecryptPermissionGranted 2 bob]).
  - reflexivity.
  - vm_compute. reflexivity.
Defined.
